(** * JARVIS: a Telegram-to-Claude bridge (src/index.ts)

    A shallow embedding of the history store ([loadHistory], [saveHistory],
    [addToHistory]), of the request assembly ([getResponse]) and of the
    text-message handler registered by [connectTelegram], together with
    the part of the JavaScript runtime these functions rely on
    (String.prototype.trim / split / startsWith, Array.prototype.filter /
    slice / splice, JSON.stringify and JSON.parse), and the properties of
    the specification proved or refuted over them. *)

From Stdlib Require Import Ascii String.
From Stdlib Require Import List NArith ZArith Bool Lia Arith Wf_nat.
Import ListNotations.

Set Implicit Arguments.
Set Warnings "-register-all".

(** ** JavaScript strings

    A JavaScript string is a sequence of UTF-16 code units.  A code unit
    is kept as an [N]; no function below relies on it being below 2^16. *)

Module JS.

Definition char16 := N.
Definition jsstring := list char16.

(** A string literal of the source, written in ASCII. *)
Definition lit (s : string) : jsstring :=
  map N_of_ascii (list_ascii_of_string s).

Definition LF : char16 := 10%N.
Definition QUOTE : char16 := 34%N.
Definition BACKSLASH : char16 := 92%N.

(** [a === b] on strings. *)
Fixpoint eqb (a b : jsstring) : bool :=
  match a, b with
  | [], [] => true
  | x :: a', y :: b' => (x =? y)%N && eqb a' b'
  | _, _ => false
  end.

(** WhiteSpace and LineTerminator code points of ECMA-262, the ones
    String.prototype.trim removes. *)
Definition is_white (c : char16) : bool :=
  ((9 <=? c) && (c <=? 13) || (c =? 32) || (c =? 160) || (c =? 5760)
   || (8192 <=? c) && (c <=? 8202) || (c =? 8232) || (c =? 8233)
   || (c =? 8239) || (c =? 8287) || (c =? 12288) || (c =? 65279))%N.

Fixpoint trimStart (s : jsstring) : jsstring :=
  match s with
  | [] => []
  | c :: r => if is_white c then trimStart r else s
  end.

Definition trimEnd (s : jsstring) : jsstring := rev (trimStart (rev s)).

(** [s.trim()] *)
Definition trim (s : jsstring) : jsstring := trimEnd (trimStart s).

(** [s.split(sep)] for a separator of one code unit: the result is never
    empty, and the empty string splits into one empty piece. *)
Fixpoint split (sep : char16) (s : jsstring) : list jsstring :=
  match s with
  | [] => [[]]
  | c :: r =>
      if (c =? sep)%N then [] :: split sep r
      else match split sep r with
           | l :: ls => (c :: l) :: ls
           | [] => [[c]]
           end
  end.

(** [a.join(sep)] on an array of strings. *)
Fixpoint join (sep : char16) (ls : list jsstring) : jsstring :=
  match ls with
  | [] => []
  | [l] => l
  | l :: ls' => l ++ sep :: join sep ls'
  end.

(** [Boolean(s)] on a string: the empty string is the only falsy one. *)
Definition truthy (s : jsstring) : bool :=
  match s with [] => false | _ :: _ => true end.

(** [s.startsWith(p)] *)
Fixpoint startsWith (p s : jsstring) : bool :=
  match p, s with
  | [], _ => true
  | a :: p', b :: s' => (a =? b)%N && startsWith p' s'
  | _ :: _, [] => false
  end.

(** [a.slice(-n)]: the last [n] elements, all of them when there are fewer. *)
Definition slice_last {A} (n : nat) (a : list A) : list A :=
  skipn (length a - n) a.

(** [a.splice(0, k)] as used for its effect on [a]: the first [k] elements
    are removed. *)
Definition splice_front {A} (k : nat) (a : list A) : list A := skipn k a.

(** [s.slice(0, n)] *)
Definition slice_to (n : nat) (s : jsstring) : jsstring := firstn n s.

(** Surrogate code units. *)
Definition is_high (c : char16) : bool := ((55296 <=? c) && (c <=? 56319))%N.
Definition is_low (c : char16) : bool := ((56320 <=? c) && (c <=? 57343))%N.

(** What a string becomes when it is encoded to UTF-8 and decoded again, as
    writing a file and reading it back does: a surrogate that is not part
    of a pair is replaced by U+FFFD. *)
Fixpoint toWellFormed (s : jsstring) : jsstring :=
  match s with
  | [] => []
  | c :: r =>
      if is_high c then
        match r with
        | d :: r' =>
            if is_low d then c :: d :: toWellFormed r'
            else 65533%N :: toWellFormed r
        | [] => [65533%N]
        end
      else if is_low c then 65533%N :: toWellFormed r
      else c :: toWellFormed r
  end.

End JS.

Import JS.

(** ** JSON values, JSON.stringify and JSON.parse *)

Module JSON.

(** A value JSON.parse can return.  A number is kept as its lexeme: its
    value as an IEEE double is not modelled (no record holds a number).
    The members of an object are listed in property order. *)
Inductive json : Type :=
| JNull
| JBool (b : bool)
| JNum (lexeme : jsstring)
| JStr (s : jsstring)
| JArr (elems : list json)
| JObj (members : list (jsstring * json)).

Definition hexdigit (d : N) : char16 :=
  (if d <? 10 then 48 + d else 87 + d)%N.

(** [\uXXXX] with lowercase hexadecimal digits. *)
Definition uescape (c : char16) : jsstring :=
  [BACKSLASH; 117%N;
   hexdigit ((c / 4096) mod 16); hexdigit ((c / 256) mod 16);
   hexdigit ((c / 16) mod 16); hexdigit (c mod 16)].

(** One code unit that is not a surrogate, as QuoteJSONString writes it. *)
Definition escape_unit (c : char16) : jsstring :=
  (if c =? 8 then [BACKSLASH; 98]
   else if c =? 9 then [BACKSLASH; 116]
   else if c =? 10 then [BACKSLASH; 110]
   else if c =? 12 then [BACKSLASH; 102]
   else if c =? 13 then [BACKSLASH; 114]
   else if c =? 34 then [BACKSLASH; 34]
   else if c =? 92 then [BACKSLASH; 92]
   else if c <? 32 then uescape c
   else [c])%N.

(** The characters between the quotes of QuoteJSONString: a surrogate
    pair is copied, a lone surrogate is escaped. *)
Fixpoint quote_body (s : jsstring) : jsstring :=
  match s with
  | [] => []
  | c :: r =>
      if is_high c then
        match r with
        | d :: r' =>
            if is_low d then c :: d :: quote_body r'
            else uescape c ++ quote_body r
        | [] => uescape c
        end
      else if is_low c then uescape c ++ quote_body r
      else escape_unit c ++ quote_body r
  end.

Definition quote (s : jsstring) : jsstring :=
  QUOTE :: quote_body s ++ [QUOTE].

Fixpoint concat_sep (sep : jsstring) (ls : list jsstring) : jsstring :=
  match ls with
  | [] => []
  | [l] => l
  | l :: ls' => l ++ sep ++ concat_sep sep ls'
  end.

(** [JSON.stringify(v)] with no replacer and no indentation. *)
Fixpoint stringify (v : json) : jsstring :=
  match v with
  | JNull => lit "null"
  | JBool true => lit "true"
  | JBool false => lit "false"
  | JNum lexeme => lexeme
  | JStr s => quote s
  | JArr elems =>
      lit "[" ++ concat_sep (lit ",") (map stringify elems) ++ lit "]"
  | JObj members =>
      lit "{"
      ++ concat_sep (lit ",")
           (map (fun kv => quote (fst kv) ++ lit ":" ++ stringify (snd kv))
                members)
      ++ lit "}"
  end.

(** *** JSON.parse *)

Definition is_ws (c : char16) : bool :=
  ((c =? 32) || (c =? 9) || (c =? 10) || (c =? 13))%N.

Fixpoint skip_ws (s : jsstring) : jsstring :=
  match s with
  | [] => []
  | c :: r => if is_ws c then skip_ws r else s
  end.

Definition hexval (c : char16) : option N :=
  (if (48 <=? c) && (c <=? 57) then Some (c - 48)
   else if (97 <=? c) && (c <=? 102) then Some (c - 87)
   else if (65 <=? c) && (c <=? 70) then Some (c - 55)
   else None)%N.

Definition hex4 (a b c d : char16) : option char16 :=
  match hexval a, hexval b, hexval c, hexval d with
  | Some x, Some y, Some z, Some t => Some (x * 4096 + y * 256 + z * 16 + t)%N
  | _, _, _, _ => None
  end.

(** The character a one-letter escape stands for. *)
Definition unescape (e : char16) : option char16 :=
  (if e =? 34 then Some 34
   else if e =? 92 then Some 92
   else if e =? 47 then Some 47
   else if e =? 98 then Some 8
   else if e =? 102 then Some 12
   else if e =? 110 then Some 10
   else if e =? 114 then Some 13
   else if e =? 116 then Some 9
   else None)%N.

Definition consfst {A} (c : char16) (x : option (jsstring * A))
  : option (jsstring * A) :=
  match x with
  | Some (s, r) => Some (c :: s, r)
  | None => None
  end.

(** A string after its opening quote: its value and what follows the
    closing quote. *)
Fixpoint parse_string (s : jsstring) : option (jsstring * jsstring) :=
  match s with
  | [] => None
  | c :: r =>
      if (c =? 34)%N then Some ([], r)
      else if (c =? 92)%N then
        match r with
        | [] => None
        | e :: r1 =>
            if (e =? 117)%N then
              match r1 with
              | a :: b :: c' :: d :: r2 =>
                  match hex4 a b c' d with
                  | Some u => consfst u (parse_string r2)
                  | None => None
                  end
              | _ => None
              end
            else
              match unescape e with
              | Some u => consfst u (parse_string r1)
              | None => None
              end
        end
      else if (c <? 32)%N then None
      else consfst c (parse_string r)
  end.

Definition is_digit (c : char16) : bool := ((48 <=? c) && (c <=? 57))%N.

Fixpoint digits (s : jsstring) : jsstring * jsstring :=
  match s with
  | c :: r =>
      if is_digit c then let (ds, r') := digits r in (c :: ds, r') else ([], s)
  | [] => ([], [])
  end.

(** The integer part of a number: [0], or a non-zero digit and digits. *)
Definition parse_int (s : jsstring) : option (jsstring * jsstring) :=
  match s with
  | c :: r =>
      if (c =? 48)%N then Some ([c], r)
      else if is_digit c then let (ds, r') := digits r in Some (c :: ds, r')
      else None
  | [] => None
  end.

Definition parse_frac (s : jsstring) : option (jsstring * jsstring) :=
  match s with
  | c :: r =>
      if (c =? 46)%N then
        match digits r with
        | ([], _) => None
        | (ds, r') => Some (c :: ds, r')
        end
      else Some ([], s)
  | [] => Some ([], [])
  end.

Definition parse_exp (s : jsstring) : option (jsstring * jsstring) :=
  match s with
  | c :: r =>
      if ((c =? 101) || (c =? 69))%N then
        let (sign, r1) :=
          match r with
          | g :: r0 => if ((g =? 43) || (g =? 45))%N then ([g], r0) else ([], r)
          | [] => ([], r)
          end in
        match digits r1 with
        | ([], _) => None
        | (ds, r') => Some (c :: sign ++ ds, r')
        end
      else Some ([], s)
  | [] => Some ([], [])
  end.

Definition parse_number (s : jsstring) : option (jsstring * jsstring) :=
  let (sign, s1) :=
    match s with
    | c :: r => if (c =? 45)%N then ([c], r) else ([], s)
    | [] => ([], s)
    end in
  match parse_int s1 with
  | None => None
  | Some (i, s2) =>
      match parse_frac s2 with
      | None => None
      | Some (f, s3) =>
          match parse_exp s3 with
          | None => None
          | Some (e, s4) => Some (sign ++ i ++ f ++ e, s4)
          end
      end
  end.

(** [expect w s]: [s] without its prefix [w]. *)
Fixpoint expect (w s : jsstring) : option jsstring :=
  match w, s with
  | [], _ => Some s
  | a :: w', b :: s' => if (a =? b)%N then expect w' s' else None
  | _ :: _, [] => None
  end.

Fixpoint lookup (k : jsstring) (ms : list (jsstring * json)) : option json :=
  match ms with
  | [] => None
  | (k', v) :: ms' => if eqb k k' then Some v else lookup k ms'
  end.

Definition remove_key (k : jsstring) (ms : list (jsstring * json))
  : list (jsstring * json) :=
  filter (fun kv => negb (eqb k (fst kv))) ms.

(** The member [k: v] placed before the members [ms] that follow it in the
    text: a later member of the same name overwrites the value and leaves
    the property where it was first created. *)
Definition add_member (k : jsstring) (v : json) (ms : list (jsstring * json))
  : list (jsstring * json) :=
  match lookup k ms with
  | Some v' => (k, v') :: remove_key k ms
  | None => (k, v) :: ms
  end.

(** A value, the elements of an array after its first bracket, the
    members of an object after its first brace.  The fuel [n] bounds the
    depth of the calls; one level of nesting takes two calls and at least
    one character, so a fuel above twice the length of the text is never
    used up ([Fuel.parse_value_fuel]). *)
Fixpoint parse_value (n : nat) (s : jsstring) : option (json * jsstring) :=
  match n with
  | O => None
  | S n' =>
      match s with
      | [] => None
      | c :: r =>
          if (c =? 34)%N then
            match parse_string r with
            | Some (str, r') => Some (JStr str, r')
            | None => None
            end
          else if (c =? 123)%N then
            match skip_ws r with
            | d :: r' =>
                if (d =? 125)%N then Some (JObj [], r')
                else match parse_members n' (d :: r') with
                     | Some (ms, r'') => Some (JObj ms, r'')
                     | None => None
                     end
            | [] => None
            end
          else if (c =? 91)%N then
            match skip_ws r with
            | d :: r' =>
                if (d =? 93)%N then Some (JArr [], r')
                else match parse_elements n' (d :: r') with
                     | Some (vs, r'') => Some (JArr vs, r'')
                     | None => None
                     end
            | [] => None
            end
          else if (c =? 116)%N then
            match expect (lit "rue") r with
            | Some r' => Some (JBool true, r')
            | None => None
            end
          else if (c =? 102)%N then
            match expect (lit "alse") r with
            | Some r' => Some (JBool false, r')
            | None => None
            end
          else if (c =? 110)%N then
            match expect (lit "ull") r with
            | Some r' => Some (JNull, r')
            | None => None
            end
          else
            match parse_number s with
            | Some (lexeme, r') => Some (JNum lexeme, r')
            | None => None
            end
      end
  end
with parse_elements (n : nat) (s : jsstring)
  : option (list json * jsstring) :=
  match n with
  | O => None
  | S n' =>
      match parse_value n' s with
      | None => None
      | Some (v, r) =>
          match skip_ws r with
          | c :: r' =>
              if (c =? 44)%N then
                match parse_elements n' (skip_ws r') with
                | Some (vs, r'') => Some (v :: vs, r'')
                | None => None
                end
              else if (c =? 93)%N then Some ([v], r')
              else None
          | [] => None
          end
      end
  end
with parse_members (n : nat) (s : jsstring)
  : option (list (jsstring * json) * jsstring) :=
  match n with
  | O => None
  | S n' =>
      match s with
      | [] => None
      | q :: r =>
          if negb (q =? 34)%N then None
          else
            match parse_string r with
            | None => None
            | Some (k, r1) =>
                match skip_ws r1 with
                | [] => None
                | c :: r2 =>
                    if negb (c =? 58)%N then None
                    else
                      match parse_value n' (skip_ws r2) with
                      | None => None
                      | Some (v, r3) =>
                          match skip_ws r3 with
                          | [] => None
                          | d :: r4 =>
                              if (d =? 44)%N then
                                match parse_members n' (skip_ws r4) with
                                | Some (ms, r5) => Some (add_member k v ms, r5)
                                | None => None
                                end
                              else if (d =? 125)%N then Some ([(k, v)], r4)
                              else None
                          end
                      end
                end
            end
      end
  end.

(** [JSON.parse(text)]: [None] stands for the SyntaxError it throws. *)
Definition parse (text : jsstring) : option json :=
  let s := skip_ws text in
  match parse_value (S (2 * length s)) s with
  | Some (v, r) => match skip_ws r with [] => Some v | _ :: _ => None end
  | None => None
  end.

End JSON.

Import JSON.

(** ** The process and what surrounds it *)

Inductive Exn : Type :=
| SyntaxError                 (* JSON.parse on a text that is not JSON *)
| TypeError                   (* a property read on null *)
| FsError                     (* fs.readFileSync, fs.writeFileSync *)
| ApiError (info : jsstring). (* anthropic.messages.create rejected *)

Inductive Result (A : Type) : Type :=
| Ok (a : A)
| Throw (e : Exn).

Arguments Ok {A} a.
Arguments Throw {A} e.

(** [interface Message] *)
Inductive Role : Type := user | assistant.

Record Message : Type := mkMessage {
  role : Role;
  content : jsstring;
  timestamp : jsstring
}.

Definition role_name (r : Role) : jsstring :=
  match r with user => lit "user" | assistant => lit "assistant" end.

(** The object [{ role, content, timestamp }]. *)
Definition message_value (m : Message) : json :=
  JObj [(lit "role", JStr (role_name (role m)));
        (lit "content", JStr (content m));
        (lit "timestamp", JStr (timestamp m))].

(** A JavaScript value read from a property: [None] is [undefined]. *)
Definition jsval := option json.

(** [{ role: m.role, content: m.content }], an entry of [messages]. *)
Record MessageParam : Type := mkParam {
  p_role : jsval;
  p_content : jsval
}.

(** The argument of [anthropic.messages.create]. *)
Record Request : Type := mkRequest {
  model : jsstring;
  max_tokens : N;
  messages : list MessageParam;
  system : jsstring
}.

(** A content block of the reply: its [type], and its [text] when it has
    that property. *)
Record ContentBlock : Type := mkBlock {
  b_type : jsstring;
  b_text : option jsstring
}.

Record Response : Type := mkResponse {
  r_content : list ContentBlock
}.

(** A reading of the clock, [new Date()], with the two renderings the
    program asks for. *)
Record Date : Type := mkDate {
  toISOString : jsstring;
  toLocaleTimeString : jsstring
}.

(** What the process does to the outside, in order. *)
Inductive Event : Type :=
| ConsoleLog (line : jsstring)
| ConsoleError (err : Exn)
| SendChatAction (chat : Z) (action : jsstring)
| Reply (text : jsstring)
| MessagesCreate (req : Request).

(** The state of the process and of what it talks to.
    - [file]: the text of history.jsonl, [None] when the file does not
      exist;
    - [fs_fail]: the outcome of the coming calls of fs.readFileSync and
      fs.writeFileSync, in order, [true] for a call that throws (storage
      unreadable or unwritable); calls past the end of the list succeed;
    - [clock], [reads]: the reading the clock gives the n-th time it is
      read, and how many times it has been read;
    - [api]: the answer of the model service to a request;
    - [trace]: the events so far.
    The calls of the Telegram API are recorded and do not fail. *)
Record World : Type := mkWorld {
  file : option jsstring;
  fs_fail : list bool;
  clock : nat -> Date;
  reads : nat;
  api : Request -> Result Response;
  trace : list Event
}.

Definition set_file (f : option jsstring) (w : World) : World :=
  mkWorld f (fs_fail w) (clock w) (reads w) (api w) (trace w).
Definition set_fs_fail (l : list bool) (w : World) : World :=
  mkWorld (file w) l (clock w) (reads w) (api w) (trace w).
Definition set_reads (n : nat) (w : World) : World :=
  mkWorld (file w) (fs_fail w) (clock w) n (api w) (trace w).
Definition set_trace (t : list Event) (w : World) : World :=
  mkWorld (file w) (fs_fail w) (clock w) (reads w) (api w) t.

(** Computations of the process: a state, and a value or an exception. *)
Definition M (A : Type) : Type := World -> Result A * World.

Definition ret {A} (a : A) : M A := fun w => (Ok a, w).

Definition throw {A} (e : Exn) : M A := fun w => (Throw e, w).

Definition bind {A B} (m : M A) (k : A -> M B) : M B :=
  fun w =>
    match m w with
    | (Ok a, w') => k a w'
    | (Throw e, w') => (Throw e, w')
    end.

(** [try { body } catch (err) { handler }] *)
Definition try_catch {A} (body : M A) (handler : Exn -> M A) : M A :=
  fun w =>
    match body w with
    | (Ok a, w') => (Ok a, w')
    | (Throw e, w') => handler e w'
    end.

Notation "x <- m ;; k" := (bind m (fun x => k))
  (at level 61, m at next level, right associativity).
Notation "m ;;; k" := (bind m (fun _ => k))
  (at level 61, right associativity).

(** [a.map(f)] for an [f] that may throw: the first exception ends it. *)
Fixpoint mapM {A B} (f : A -> M B) (l : list A) : M (list B) :=
  match l with
  | [] => ret []
  | a :: l' => b <- f a ;; bs <- mapM f l' ;; ret (b :: bs)
  end.

(** The next outcome of a file-system call. *)
Definition next_fs_fail : M bool :=
  fun w =>
    match fs_fail w with
    | [] => (Ok false, w)
    | b :: l => (Ok b, set_fs_fail l w)
    end.

(** [fs.existsSync(HISTORY_FILE)], which never throws. *)
Definition existsSync : M bool :=
  fun w => (Ok (match file w with Some _ => true | None => false end), w).

(** [fs.readFileSync(HISTORY_FILE, 'utf-8')] *)
Definition readFileSync : M jsstring :=
  failed <- next_fs_fail ;;
  if failed : bool then throw FsError
  else fun w =>
         match file w with
         | Some text => (Ok text, w)
         | None => (Throw FsError, w)
         end.

(** [fs.writeFileSync(HISTORY_FILE, data)]: the file is replaced by the
    UTF-8 encoding of [data]. *)
Definition writeFileSync (data : jsstring) : M unit :=
  failed <- next_fs_fail ;;
  if failed : bool then throw FsError
  else fun w => (Ok tt, set_file (Some (toWellFormed data)) w).

(** [new Date()] *)
Definition newDate : M Date :=
  fun w => (Ok (clock w (reads w)), set_reads (S (reads w)) w).

Definition emit (e : Event) : M unit :=
  fun w => (Ok tt, set_trace (trace w ++ [e]) w).

(** [anthropic.messages.create(req)], awaited. *)
Definition messages_create (req : Request) : M Response :=
  emit (MessagesCreate req) ;;; fun w => (api w req, w).

(** [JSON.parse(line)] *)
Definition JSON_parse (line : jsstring) : M json :=
  match parse line with
  | Some v => ret v
  | None => throw SyntaxError
  end.

(** [v[name]] for the names [role] and [content], which no prototype
    defines: reading a property of [null] throws, a value that is not an
    object has no such property. *)
Definition get_prop (v : json) (name : jsstring) : M jsval :=
  match v with
  | JNull => throw TypeError
  | JObj members => ret (lookup name members)
  | _ => ret None
  end.

(** ** The program *)

Definition ASSISTANT_NAME : jsstring := lit "JARVIS".
Definition MAX_HISTORY : nat := 100.

(** [loadHistory()] *)
Definition loadHistory : M (list json) :=
  found <- existsSync ;;
  if negb found then ret []
  else
    text <- readFileSync ;;
    let lines := filter truthy (split LF (trim text)) in
    mapM JSON_parse lines.

(** [saveHistory(history)] *)
Definition saveHistory (history : list json) : M unit :=
  let lines := join LF (map stringify history) in
  writeFileSync lines.

(** [addToHistory(role, content)].  The bound of the source is the
    constant [MAX_HISTORY]; it is an argument here, [max_history], so that
    the store can be stated for every bound, and the handler passes
    [MAX_HISTORY]. *)
Definition addToHistory (max_history : nat) (role : Role) (content : jsstring)
  : M unit :=
  history <- loadHistory ;;
  now <- newDate ;;
  let history :=
    history ++ [message_value (mkMessage role content (toISOString now))] in
  let history :=
    if max_history <? length history
    then splice_front (length history - max_history) history
    else history in
  saveHistory history.

Definition FALLBACK : jsstring :=
  lit "Sorry, I could not generate a response.".

Definition SYSTEM : jsstring :=
  lit "You are " ++ ASSISTANT_NAME
  ++ lit ", a helpful AI assistant. Respond concisely and conversationally. Personality: 50% Alfred from Batman, 50% JARVIS from Iron Man.".

(** [m => ({ role: m.role, content: m.content })] *)
Definition to_param (m : json) : M MessageParam :=
  r <- get_prop m (lit "role") ;;
  c <- get_prop m (lit "content") ;;
  ret (mkParam r c).

(** [response.content.find(b => b.type === 'text')] and the choice that
    follows it. *)
Definition first_text (blocks : list ContentBlock) : jsstring :=
  match find (fun b => eqb (b_type b) (lit "text")) blocks with
  | Some block =>
      match b_text block with
      | Some text => text
      | None => FALLBACK
      end
  | None => FALLBACK
  end.

(** [getResponse(userMessage)] *)
Definition getResponse (userMessage : jsstring) : M jsstring :=
  history <- loadHistory ;;
  messages <- mapM to_param (slice_last 20 history) ;;
  let messages :=
    messages ++ [mkParam (Some (JStr (lit "user"))) (Some (JStr userMessage))] in
  response <- messages_create
                (mkRequest (lit "claude-sonnet-4-5") 4096 messages SYSTEM) ;;
  ret (first_text (r_content response)).

(** The update given to the handler: [ctx.message], its [text], and
    [ctx.chat?.id]. *)
Record TgMessage : Type := mkTgMessage {
  text : option jsstring
}.

Record Context : Type := mkContext {
  message : option TgMessage;
  chat_id : option Z
}.

(** [text.slice(0, 100)] followed by [...] when something was cut. *)
Definition preview (s : jsstring) : jsstring :=
  slice_to 100 s ++ (if 100 <? length s then lit "..." else []).

Definition APOLOGY : jsstring :=
  ASSISTANT_NAME ++ lit ": Sorry, something went wrong.".

(** The part of the handler inside [try]. *)
Definition respond_and_record (text : jsstring) : M unit :=
  response <- getResponse text ;;
  now <- newDate ;;
  emit (ConsoleLog (lit "[" ++ toLocaleTimeString now ++ lit "] Sent: "
                    ++ preview response)) ;;;
  emit (Reply (ASSISTANT_NAME ++ lit ": " ++ response)) ;;;
  addToHistory MAX_HISTORY user text ;;;
  addToHistory MAX_HISTORY assistant response.

(** The handler [bot.on('message:text', ...)] of connectTelegram. *)
Definition on_message_text (ctx : Context) : M unit :=
  match message ctx with
  | None => ret tt
  | Some msg =>
      match text msg with
      | None => ret tt
      | Some text =>
          if negb (truthy text) then ret tt
          else
            match chat_id ctx with
            | None => ret tt
            | Some chatId =>
                if (chatId =? 0)%Z then ret tt
                else if startsWith (lit "/") text && negb (eqb text (lit "/start"))
                then ret tt
                else
                  now <- newDate ;;
                  emit (ConsoleLog (LF :: lit "[" ++ toLocaleTimeString now
                                    ++ lit "] Received: " ++ preview text)) ;;;
                  emit (SendChatAction chatId (lit "typing")) ;;;
                  try_catch (respond_and_record text)
                    (fun err =>
                       emit (ConsoleError err) ;;;
                       emit (Reply APOLOGY))
            end
      end
  end.

(** ** Notions the properties are stated with *)

(** A text that holds no line feed and in which every surrogate is part of
    a pair: a line of the log as [saveHistory] writes it. *)
Fixpoint tidy (s : jsstring) : bool :=
  match s with
  | [] => true
  | c :: r =>
      if is_high c then
        match r with
        | d :: r' => is_low d && tidy r'
        | [] => false
        end
      else negb (is_low c) && negb (c =? LF)%N && tidy r
  end.

(** A code unit that is neither a surrogate nor a line feed. *)
Definition plain (c : char16) : bool :=
  negb (is_high c) && negb (is_low c) && negb (c =? LF)%N.

(** A member [key:string] of an object as JSON.stringify writes it,
    followed by [rest]. *)
Definition member_text (k s rest : jsstring) : jsstring :=
  QUOTE :: quote_body k ++ QUOTE :: 58%N :: QUOTE :: quote_body s
        ++ QUOTE :: rest.

(** The lines [saveHistory] writes for a history of records. *)
Definition log_lines (ms : list Message) : list jsstring :=
  map stringify (map message_value ms).

(** The log holds the records [ms] and the file system is sound: no call
    of it is going to fail, and the file, when there is one, is the text
    [saveHistory] writes for [ms]. *)
Definition stored (w : World) (ms : list Message) : Prop :=
  fs_fail w = []
  /\ ((file w = None /\ ms = []) \/ file w = Some (join LF (log_lines ms))).

(** A sequence of calls of [addToHistory], each with its role and
    content. *)
Fixpoint appendAll (max_history : nat) (calls : list (Role * jsstring))
  : M unit :=
  match calls with
  | [] => ret tt
  | (r, c) :: calls' =>
      addToHistory max_history r c ;;; appendAll max_history calls'
  end.

(** The records these calls create when the clock has been read [n] times
    before the first of them: each call reads the clock once. *)
Fixpoint stamped (clock : nat -> Date) (n : nat) (calls : list (Role * jsstring))
  : list Message :=
  match calls with
  | [] => []
  | (r, c) :: calls' =>
      mkMessage r c (toISOString (clock n)) :: stamped clock (S n) calls'
  end.

(** A record reduced to its role and content, as [getResponse] passes it
    to the model. *)
Definition reduce (m : Message) : MessageParam :=
  mkParam (Some (JStr (role_name (role m)))) (Some (JStr (content m))).

(** The entry for the message being answered. *)
Definition current (userMessage : jsstring) : MessageParam :=
  mkParam (Some (JStr (lit "user"))) (Some (JStr userMessage)).

(** The request [getResponse] makes when the history loaded is [ms]. *)
Definition request_for (ms : list Message) (userMessage : jsstring) : Request :=
  mkRequest (lit "claude-sonnet-4-5") 4096
    (map reduce (slice_last 20 ms) ++ [current userMessage]) SYSTEM.

(** The requests made to the model and the replies sent to the chat, in
    order. *)
Definition requests (t : list Event) : list Request :=
  flat_map (fun e => match e with MessagesCreate r => [r] | _ => [] end) t.

Definition replies (t : list Event) : list jsstring :=
  flat_map (fun e => match e with Reply s => [s] | _ => [] end) t.

(** A block of type [text]. *)
Definition is_text (b : ContentBlock) : bool := eqb (b_type b) (lit "text").

(** A text message that reaches the [try] of the handler: it is not
    empty, it comes with a chat, and it is not a command other than
    [/start]. *)
Definition answered (ctx : Context) (t : jsstring) (chat : Z) : Prop :=
  message ctx = Some (mkTgMessage (Some t))
  /\ chat_id ctx = Some chat
  /\ truthy t = true
  /\ chat <> 0%Z
  /\ startsWith (lit "/") t && negb (eqb t (lit "/start")) = false.

(** The world when the [try] of the handler is entered. *)
Definition received (t : jsstring) (chat : Z) (w : World) : World :=
  set_trace
    (trace w
     ++ [ConsoleLog (LF :: lit "[" ++ toLocaleTimeString (clock w (reads w))
                     ++ lit "] Received: " ++ preview t);
         SendChatAction chat (lit "typing")])
    (set_reads (S (reads w)) w).

(** The record a value stands for, when it has the shape of [Message]: an
    object whose [role] is one of the two roles and whose [content] and
    [timestamp] are strings. *)
Definition as_role (v : jsval) : option Role :=
  match v with
  | Some (JStr s) =>
      if eqb s (lit "user") then Some user
      else if eqb s (lit "assistant") then Some assistant
      else None
  | _ => None
  end.

Definition as_string (v : jsval) : option jsstring :=
  match v with
  | Some (JStr s) => Some s
  | _ => None
  end.

Definition as_message (v : json) : option Message :=
  match v with
  | JObj members =>
      match as_role (lookup (lit "role") members),
            as_string (lookup (lit "content") members),
            as_string (lookup (lit "timestamp") members) with
      | Some r, Some c, Some t => Some (mkMessage r c t)
      | _, _, _ => None
      end
  | _ => None
  end.

(** A line that parses as a valid record. *)
Definition record_line (l : jsstring) : bool :=
  match parse l with
  | Some v => match as_message v with Some _ => true | None => false end
  | None => false
  end.

(** A line with nothing but white space on it, the empty line included. *)
Definition blank (l : jsstring) : bool := forallb is_white l.

(** ** Notions for what the parser consumes *)

(** [r'] begins as [r] does. *)
Definition same_head (r r' : jsstring) : Prop := hd_error r' = hd_error r.

(** No digit comes first in [r]. *)
Definition no_digit_ahead (r : jsstring) : Prop :=
  match r with c :: _ => is_digit c = false | [] => True end.

Definition is_number (v : json) : bool :=
  match v with JNum _ => true | _ => false end.

Definition is_object (v : json) : bool :=
  match v with JObj _ => true | _ => false end.

(** What a parser returns does not depend on what follows the text it
    consumed: [s] is a consumed text [p] followed by the rest [r], and the
    same is returned in front of any other rest (after a number, a rest
    that begins as [r] does).  The consumed text of an object goes from
    its first brace to its last one. *)
Definition value_stable (n : nat) : Prop :=
  forall s v r,
    parse_value n s = Some (v, r) ->
    exists p,
      s = p ++ r
      /\ (forall r', is_number v = false \/ same_head r r' ->
                     parse_value n (p ++ r') = Some (v, r'))
      /\ (is_object v = true -> exists p', p = 123%N :: p' ++ [125%N]).

Definition elements_stable (n : nat) : Prop :=
  forall s vs r,
    parse_elements n s = Some (vs, r) ->
    exists p, s = p ++ r /\ forall r', parse_elements n (p ++ r') = Some (vs, r').

Definition members_stable (n : nat) : Prop :=
  forall s ms r,
    parse_members n s = Some (ms, r) ->
    exists p,
      s = p ++ r
      /\ (forall r', parse_members n (p ++ r') = Some (ms, r'))
      /\ exists p', p = p' ++ [125%N].

(** ** Notions for the lines of a trimmed text *)

(** The lines left when the blank lines at the head of [ls] are dropped. *)
Fixpoint drop_blank (ls : list jsstring) : list jsstring :=
  match ls with
  | [] => []
  | l :: rest => if blank l then drop_blank rest else ls
  end.

(** The lines of a text trimmed at its start, from the lines of the
    text: the blank lines at the head are dropped and the first line left
    is trimmed. *)
Definition head_trimmed (ls : list jsstring) : list jsstring :=
  match drop_blank ls with
  | [] => [[]]
  | l :: rest => trimStart l :: rest
  end.

(** [c] added at the end of the last line. *)
Fixpoint snoc_last (c : char16) (ls : list jsstring) : list jsstring :=
  match ls with
  | [] => [[c]]
  | [l] => [l ++ [c]]
  | l :: rest => l :: snoc_last c rest
  end.

(** ** Sample data *)

(** A clock whose n-th reading is rendered [Tn] and [Ln]. *)
Definition sample_clock (n : nat) : Date :=
  mkDate (lit "T" ++ [N.of_nat (48 + n)]) (lit "L" ++ [N.of_nat (48 + n)]).

(** A model service that answers every request with the text [hello],
    after a block of another type. *)
Definition sample_api (_ : Request) : Result Response :=
  Ok (mkResponse [mkBlock (lit "tool_use") None;
                  mkBlock (lit "text") (Some (lit "hello"))]).

(** A process that has done nothing yet, with no log file. *)
Definition fresh_world : World :=
  mkWorld None [] sample_clock 0 sample_api [].



Definition sample_calls : list (Role * jsstring) :=
  [(user, lit "A"); (assistant, lit "B"); (user, lit "C"); (assistant, lit "D")].

(** An update carrying the text [t] for the chat 7. *)
Definition sample_update (t : jsstring) : Context :=
  mkContext (Some (mkTgMessage (Some t))) (Some 7%Z).

(** The line of the log for a user record. *)
Definition sample_line (c : jsstring) : jsstring :=
  stringify (message_value (mkMessage user c (lit "2026-01-01T00:00:00.000Z"))).

(** A log of [n] records that come as exchanges: the record of index [i]
    is a user record when [i] is even and an assistant record when it is
    odd, its content is the letter of rank [i], and it is stamped with the
    reading [i] of the sample clock. *)
Definition sample_record (i : nat) : Message :=
  mkMessage (if Nat.even i then user else assistant)
    [N.of_nat (65 + i)] (toISOString (sample_clock i)).

Definition sample_log (n : nat) : list Message := map sample_record (seq 0 n).

(** A process that has done nothing yet, whose log file is the text
    [saveHistory] writes for [ms]. *)
Definition world_with (ms : list Message) : World :=
  set_file (Some (join LF (log_lines ms))) fresh_world.

(** ** Calls of Telegram that are rejected *)

(** What becomes of the calls of the Telegram API made while one update
    is handled: [ctx.api.sendChatAction], the [ctx.reply] that carries the
    answer and the [ctx.reply] that carries the apology.  Each is awaited;
    [None] stands for a call that succeeds and [Some e] for a call that
    is rejected with the error [e]. *)
Record Delivery : Type := mkDelivery {
  typing_rejected : option Exn;
  reply_rejected : option Exn;
  apology_rejected : option Exn
}.

(** Every call succeeds. *)
Definition delivered : Delivery := mkDelivery None None None.

(** An awaited call of the Telegram API: it is recorded when it succeeds,
    and throws, with nothing sent, when it is rejected. *)
Definition call (rejected : option Exn) (e : Event) : M unit :=
  match rejected with
  | None => emit e
  | Some err => throw err
  end.

(** The part of the handler inside [try], with the calls of Telegram as
    [d] has them. *)
Definition respond_and_record_with (d : Delivery) (text : jsstring) : M unit :=
  response <- getResponse text ;;
  now <- newDate ;;
  emit (ConsoleLog (lit "[" ++ toLocaleTimeString now ++ lit "] Sent: "
                    ++ preview response)) ;;;
  call (reply_rejected d) (Reply (ASSISTANT_NAME ++ lit ": " ++ response)) ;;;
  addToHistory MAX_HISTORY user text ;;;
  addToHistory MAX_HISTORY assistant response.

(** The handler [bot.on('message:text', ...)], with the calls of Telegram
    as [d] has them: [on_message_text] is the handler when every call
    succeeds.  The typing action is awaited before [try], and the apology
    inside [catch]: an error of either leaves the handler. *)
Definition on_message_text_with (d : Delivery) (ctx : Context) : M unit :=
  match message ctx with
  | None => ret tt
  | Some msg =>
      match text msg with
      | None => ret tt
      | Some text =>
          if negb (truthy text) then ret tt
          else
            match chat_id ctx with
            | None => ret tt
            | Some chatId =>
                if (chatId =? 0)%Z then ret tt
                else if startsWith (lit "/") text && negb (eqb text (lit "/start"))
                then ret tt
                else
                  now <- newDate ;;
                  emit (ConsoleLog (LF :: lit "[" ++ toLocaleTimeString now
                                    ++ lit "] Received: " ++ preview text)) ;;;
                  call (typing_rejected d)
                    (SendChatAction chatId (lit "typing")) ;;;
                  try_catch (respond_and_record_with d text)
                    (fun err =>
                       emit (ConsoleError err) ;;;
                       call (apology_rejected d) (Reply APOLOGY))
            end
      end
  end.

(** ** The start of the process *)



(** The updates handled in order, each one to its end before the next,
    when no call of Telegram is rejected. *)
Fixpoint handle_all (us : list Context) : M unit :=
  match us with
  | [] => ret tt
  | u :: us' => on_message_text u ;;; handle_all us'
  end.

(** What the outside does while one update is handled: the update, what
    becomes of the calls of Telegram, and how the model service answers
    the request made for it, which may differ from one update to the
    next. *)
Record Turn : Type := mkTurn {
  update : Context;
  delivery : Delivery;
  service : Request -> Result Response
}.


Definition set_api (a : Request -> Result Response) (w : World) : World :=
  mkWorld (file w) (fs_fail w) (clock w) (reads w) a (trace w).

(** The updates handled by [bot.start()], in order, each one to its end
    before the next.  No error handler is installed with [bot.catch]: an
    error that leaves the handler stops the bot and is the error
    [bot.start()] is rejected with. *)
Fixpoint poll (ts : list Turn) : M unit :=
  match ts with
  | [] => ret tt
  | t :: ts' =>
      (fun w => on_message_text_with (delivery t) (update t)
                  (set_api (service t) w)) ;;;
      poll ts'
  end.





(** ** Notions for exchanges and sessions *)

(** A history made of exchanges: a user record, then an assistant
    record, and so on. *)
Fixpoint paired (ms : list Message) : bool :=
  match ms with
  | [] => true
  | u :: a :: rest =>
      match role u, role a with
      | user, assistant => paired rest
      | _, _ => false
      end
  | [_] => false
  end.

Definition has_role (r : Role) (p : MessageParam) : bool :=
  match p_role p with
  | Some (JStr s) => eqb s (role_name r)
  | _ => false
  end.

(** The entries of a request take turns, user then assistant, from a
    user entry to a user entry. *)
Fixpoint takes_turns (ps : list MessageParam) : bool :=
  match ps with
  | [] => false
  | [p] => has_role user p
  | p :: q :: rest => has_role user p && has_role assistant q && takes_turns rest
  end.

(** The store is sound, and its log is made of at most [MAX_HISTORY]
    records that come as exchanges. *)
Definition store_ok (w : World) : Prop :=
  exists ms, stored w ms /\ length ms <= MAX_HISTORY /\ paired ms = true.

(** The entry [to_param] makes of a value that is not [null]: the [role]
    and [content] of an object, and nothing for a value of another kind,
    which has no such property. *)
Definition entry_of (v : json) : MessageParam :=
  match v with
  | JObj members =>
      mkParam (lookup (lit "role") members) (lookup (lit "content") members)
  | _ => mkParam None None
  end.

(** What the [catch] of the handler does with the error [e]: the events
    [evs] it adds and the way [r] the handler ends.  The error is logged;
    then the apology is sent and the handler returns, or the apology is
    rejected and its error leaves the handler. *)
Definition caught (d : Delivery) (e : Exn) (evs : list Event) (r : Result unit)
  : Prop :=
  match apology_rejected d with
  | None => evs = [ConsoleError e; Reply APOLOGY] /\ r = Ok tt
  | Some e' => evs = [ConsoleError e] /\ r = Throw e'
  end.

(** The world once the line Received has been written. *)
Definition logged (t : jsstring) (w : World) : World :=
  set_trace
    (trace w
     ++ [ConsoleLog (LF :: lit "[" ++ toLocaleTimeString (clock w (reads w))
                     ++ lit "] Received: " ++ preview t)])
    (set_reads (S (reads w)) w).

(** * Properties *)

(** ** Lists and strings *)

Lemma list_pair_ind {A} (P : list A -> Prop) :
  P [] ->
  (forall a, P [a]) ->
  (forall a b l, P l -> P (b :: l) -> P (a :: b :: l)) ->
  forall l, P l.
Proof.
  intros H0 H1 H2 l.
  assert (H : P l /\ forall a, P (a :: l)).
  { induction l as [|b l [IHl IHbl]].
    - split; auto.
    - split; auto. }
  apply H.
Qed.

Module StringFacts.

Lemma eqb_eq (a b : jsstring) : eqb a b = true <-> a = b.
Proof.
  revert b. induction a as [|x a IH]; intros [|y b]; simpl;
    try (split; congruence).
  rewrite andb_true_iff, N.eqb_eq, IH. split.
  - intros [-> ->]. reflexivity.
  - intros H. inversion H. auto.
Qed.

Lemma eqb_refl (a : jsstring) : eqb a a = true.
Proof. apply eqb_eq. reflexivity. Qed.

Lemma eqb_neq (a b : jsstring) : eqb a b = false <-> a <> b.
Proof.
  rewrite <- eqb_eq. destruct (eqb a b); split; congruence.
Qed.

(** A string with no white space at either end is left alone by trim. *)
Lemma trimStart_tight c s : is_white c = false -> trimStart (c :: s) = c :: s.
Proof. intros H. simpl. rewrite H. reflexivity. Qed.

Lemma trimEnd_tight s c : is_white c = false -> trimEnd (s ++ [c]) = s ++ [c].
Proof.
  intros H. unfold trimEnd. rewrite rev_app_distr. simpl. rewrite H.
  change (c :: rev s) with ([c] ++ rev s).
  rewrite rev_app_distr, rev_involutive. reflexivity.
Qed.

Lemma trim_tight c s d :
  is_white c = false -> is_white d = false ->
  trim (c :: s ++ [d]) = c :: s ++ [d].
Proof.
  intros Hc Hd. unfold trim. rewrite trimStart_tight by assumption.
  change (c :: s ++ [d]) with ((c :: s) ++ [d]).
  apply trimEnd_tight. assumption.
Qed.

(** White space around a text is absorbed by trim. *)
Lemma trimStart_white pre s :
  forallb is_white pre = true -> trimStart (pre ++ s) = trimStart s.
Proof.
  induction pre as [|x pre IH]; simpl; intros H; auto.
  apply andb_true_iff in H. destruct H as [Hx H]. rewrite Hx. auto.
Qed.

Lemma trimStart_all_white s : forallb is_white s = true -> trimStart s = [].
Proof.
  intros H. rewrite <- (app_nil_r s). rewrite trimStart_white; auto.
Qed.

Lemma forallb_rev {A} (f : A -> bool) l : forallb f (rev l) = forallb f l.
Proof.
  induction l as [|x l IH]; simpl; auto.
  rewrite forallb_app, IH. simpl. rewrite andb_true_r, andb_comm. reflexivity.
Qed.

Lemma trimEnd_white s post :
  forallb is_white post = true -> trimEnd (s ++ post) = trimEnd s.
Proof.
  intros H. unfold trimEnd. rewrite rev_app_distr, trimStart_white; auto.
  rewrite forallb_rev. assumption.
Qed.

Lemma trimStart_app_white s post :
  forallb is_white post = true ->
  exists post',
    forallb is_white post' = true
    /\ trimStart (s ++ post) = trimStart s ++ post'.
Proof.
  intros H. induction s as [|c s (post' & Hw & E)].
  - exists []. split; [reflexivity|]. apply trimStart_all_white. assumption.
  - cbn [app trimStart]. destruct (is_white c).
    + exists post'. auto.
    + exists post. auto.
Qed.

(** White space before and after a text does not show after trim. *)
Lemma trim_white_around pre s post :
  forallb is_white pre = true -> forallb is_white post = true ->
  trim (pre ++ s ++ post) = trim s.
Proof.
  intros Hpre Hpost. unfold trim. rewrite trimStart_white by assumption.
  destruct (@trimStart_app_white s post Hpost) as (post' & Hw & E).
  rewrite E. apply trimEnd_white. assumption.
Qed.

(** Splitting what join assembled. *)
Lemma split_nonempty sep s : split sep s <> [].
Proof.
  destruct s as [|c r]; simpl; try congruence.
  destruct (c =? sep)%N; try congruence.
  destruct (split sep r); congruence.
Qed.

Lemma split_line sep l :
  Forall (fun c => c <> sep) l -> split sep l = [l].
Proof.
  induction 1 as [|c l Hc _ IH]; simpl; auto.
  apply N.eqb_neq in Hc. rewrite Hc, IH. reflexivity.
Qed.

Lemma split_app sep l r :
  Forall (fun c => c <> sep) l ->
  split sep (l ++ sep :: r) = l :: split sep r.
Proof.
  induction 1 as [|c l Hc _ IH]; simpl.
  - rewrite N.eqb_refl. reflexivity.
  - apply N.eqb_neq in Hc. rewrite Hc, IH. reflexivity.
Qed.

Lemma split_join sep ls :
  ls <> [] ->
  Forall (Forall (fun c => c <> sep)) ls ->
  split sep (join sep ls) = ls.
Proof.
  intros Hne H. induction H as [|l ls Hl Hls IH]; try congruence.
  destruct ls as [|l' ls'].
  - simpl. apply split_line. assumption.
  - change (join sep (l :: l' :: ls')) with (l ++ sep :: join sep (l' :: ls')).
    rewrite split_app by assumption. rewrite IH; congruence.
Qed.

Lemma join_cons sep l l' ls :
  join sep (l :: l' :: ls) = l ++ sep :: join sep (l' :: ls).
Proof. reflexivity. Qed.

End StringFacts.

(** ** JSON.parse after JSON.stringify on strings *)

Module StringRoundTrip.

Lemma hexval_hexdigit d : (d < 16)%N -> hexval (hexdigit d) = Some d.
Proof.
  intros H.
  assert (E : In d [0; 1; 2; 3; 4; 5; 6; 7; 8; 9; 10; 11; 12; 13; 14; 15]%N).
  { simpl. lia. }
  simpl in E.
  repeat (destruct E as [<- | E]; [reflexivity|]). contradiction.
Qed.

Lemma hex_digits_value c :
  (c < 65536)%N ->
  ((c / 4096) mod 16 * 4096 + (c / 256) mod 16 * 256
   + (c / 16) mod 16 * 16 + c mod 16 = c)%N.
Proof.
  intros H.
  assert (E1 := N.div_mod c 16 ltac:(lia)).
  assert (E2 := N.div_mod (c / 16) 16 ltac:(lia)).
  assert (E3 := N.div_mod (c / 16 / 16) 16 ltac:(lia)).
  assert (E4 : (c / 256 = c / 16 / 16)%N)
    by (rewrite N.Div0.div_div; reflexivity).
  assert (E5 : (c / 4096 = c / 16 / 16 / 16)%N)
    by (rewrite !N.Div0.div_div; reflexivity).
  assert (E6 : (c / 16 / 16 / 16 < 16)%N).
  { rewrite !N.Div0.div_div. apply N.Div0.div_lt_upper_bound. simpl. lia. }
  rewrite E4, E5. rewrite (N.mod_small _ _ E6). lia.
Qed.

Lemma hex4_uescape c :
  (c < 65536)%N ->
  hex4 (hexdigit ((c / 4096) mod 16)) (hexdigit ((c / 256) mod 16))
       (hexdigit ((c / 16) mod 16)) (hexdigit (c mod 16)) = Some c.
Proof.
  intros H. unfold hex4.
  rewrite !hexval_hexdigit by (apply N.mod_lt; lia).
  f_equal. apply hex_digits_value. assumption.
Qed.

Lemma parse_string_u a b c d rest :
  parse_string (BACKSLASH :: 117%N :: a :: b :: c :: d :: rest)
  = match hex4 a b c d with
    | Some u => consfst u (parse_string rest)
    | None => None
    end.
Proof. reflexivity. Qed.

Lemma parse_string_uescape c rest :
  (c < 65536)%N ->
  parse_string (uescape c ++ rest) = consfst c (parse_string rest).
Proof.
  intros H. unfold uescape.
  change (parse_string (BACKSLASH :: 117%N
            :: hexdigit ((c / 4096) mod 16) :: hexdigit ((c / 256) mod 16)
            :: hexdigit ((c / 16) mod 16) :: hexdigit (c mod 16) :: rest)
          = consfst c (parse_string rest)).
  rewrite parse_string_u, hex4_uescape by assumption. reflexivity.
Qed.

Lemma parse_string_plain c rest :
  c <> 34%N -> c <> 92%N -> (32 <= c)%N ->
  parse_string (c :: rest) = consfst c (parse_string rest).
Proof.
  intros H1 H2 H3. simpl.
  apply N.eqb_neq in H1. apply N.eqb_neq in H2. rewrite H1, H2.
  assert (E : (c <? 32)%N = false) by (apply N.ltb_ge; assumption).
  rewrite E. reflexivity.
Qed.

Lemma parse_string_escape_unit c rest :
  parse_string (escape_unit c ++ rest) = consfst c (parse_string rest).
Proof.
  unfold escape_unit.
  repeat match goal with
         | |- context [(c =? ?k)%N] =>
             destruct (N.eqb_spec c k) as [->|?]; [reflexivity|]
         end.
  destruct (N.ltb_spec c 32).
  - apply parse_string_uescape. lia.
  - apply parse_string_plain; assumption.
Qed.

Lemma high_bounds c : is_high c = true -> (55296 <= c <= 56319)%N.
Proof. unfold is_high. rewrite andb_true_iff, !N.leb_le. tauto. Qed.

Lemma low_bounds c : is_low c = true -> (56320 <= c <= 57343)%N.
Proof. unfold is_low. rewrite andb_true_iff, !N.leb_le. tauto. Qed.

Lemma quote_body_one c :
  quote_body [c]
  = if is_high c then uescape c
    else if is_low c then uescape c ++ [] else escape_unit c ++ [].
Proof. reflexivity. Qed.

Lemma quote_body_two c d s :
  quote_body (c :: d :: s)
  = if is_high c
    then if is_low d then c :: d :: quote_body s
         else uescape c ++ quote_body (d :: s)
    else if is_low c then uescape c ++ quote_body (d :: s)
         else escape_unit c ++ quote_body (d :: s).
Proof. reflexivity. Qed.

(** The text between the quotes is read back as the string it was
    written from. *)
Lemma parse_string_quote_body s rest :
  parse_string (quote_body s ++ QUOTE :: rest) = Some (s, rest).
Proof.
  induction s as [|c|c d s IHs IHds] using list_pair_ind.
  - reflexivity.
  - rewrite quote_body_one.
    destruct (is_high c) eqn:Hh; [|destruct (is_low c) eqn:Hl].
    + apply high_bounds in Hh. rewrite parse_string_uescape by lia. reflexivity.
    + apply low_bounds in Hl.
      rewrite app_nil_r, parse_string_uescape by lia. reflexivity.
    + rewrite app_nil_r, parse_string_escape_unit. reflexivity.
  - rewrite quote_body_two.
    destruct (is_high c) eqn:Hh; [destruct (is_low d) eqn:Hd|
                                   destruct (is_low c) eqn:Hl].
    + apply high_bounds in Hh. apply low_bounds in Hd.
      change ((c :: d :: quote_body s) ++ QUOTE :: rest)
        with (c :: d :: (quote_body s ++ QUOTE :: rest)).
      rewrite parse_string_plain by lia.
      rewrite parse_string_plain by lia.
      rewrite IHs. reflexivity.
    + apply high_bounds in Hh.
      rewrite <- app_assoc, parse_string_uescape by lia.
      rewrite IHds. reflexivity.
    + apply low_bounds in Hl.
      rewrite <- app_assoc, parse_string_uescape by lia.
      rewrite IHds. reflexivity.
    + rewrite <- app_assoc, parse_string_escape_unit, IHds. reflexivity.
Qed.

End StringRoundTrip.

(** ** The fuel of JSON.parse *)

Module Fuel.

Ltac break_match_in H :=
  repeat match type of H with
         | context [match ?x with _ => _ end] => destruct x eqn:?; try discriminate H
         end.

Lemma skip_ws_length s : length (skip_ws s) <= length s.
Proof.
  induction s as [|c s IH]; simpl; auto. destruct (is_ws c); simpl; lia.
Qed.

Lemma consfst_inv {A} c (x : option (jsstring * A)) k r :
  consfst c x = Some (k, r) -> exists k', x = Some (k', r) /\ k = c :: k'.
Proof.
  destruct x as [[k' r']|]; simpl; intros H; inversion H. eauto.
Qed.

Lemma parse_string_consumes s :
  forall k r, parse_string s = Some (k, r) -> length r < length s.
Proof.
  induction s as [s IH] using (induction_ltof1 _ (@length char16)).
  unfold ltof in IH. intros k r H.
  destruct s as [|c s]; [discriminate|]. cbn [parse_string] in H.
  destruct (c =? 34)%N.
  { inversion H; subst. simpl. lia. }
  destruct (c =? 92)%N.
  - destruct s as [|e r1]; [discriminate|].
    destruct (e =? 117)%N.
    + destruct r1 as [|a [|b [|c' [|d r2]]]]; try discriminate.
      destruct (hex4 a b c' d); [|discriminate].
      apply consfst_inv in H. destruct H as (k' & H & _).
      apply IH in H; simpl in *; lia.
    + destruct (unescape e); [|discriminate].
      apply consfst_inv in H. destruct H as (k' & H & _).
      apply IH in H; simpl in *; lia.
  - destruct (c <? 32)%N; [discriminate|].
    apply consfst_inv in H. destruct H as (k' & H & _).
    apply IH in H; simpl in *; lia.
Qed.

Lemma digits_length s : length (snd (digits s)) <= length s.
Proof.
  induction s as [|c s IH]; simpl; auto.
  destruct (is_digit c); simpl; [|lia].
  destruct (digits s) as [ds r']. simpl in *. lia.
Qed.

Lemma parse_int_consumes s i r :
  parse_int s = Some (i, r) -> length r < length s.
Proof.
  destruct s as [|c s]; simpl; [discriminate|].
  destruct (c =? 48)%N.
  - intros H; inversion H; subst. lia.
  - destruct (is_digit c); [|discriminate].
    pose proof (digits_length s) as L. destruct (digits s) as [ds r'].
    intros H; inversion H; subst. simpl in L. lia.
Qed.

Lemma parse_frac_length s f r :
  parse_frac s = Some (f, r) -> length r <= length s.
Proof.
  destruct s as [|c s]; simpl.
  - intros H; inversion H; subst. auto.
  - destruct (c =? 46)%N.
    + pose proof (digits_length s) as L. destruct (digits s) as [[|d ds] r'];
        [discriminate|].
      intros H; inversion H; subst. simpl in L. lia.
    + intros H; inversion H; subst. auto.
Qed.

Lemma parse_exp_length s e r :
  parse_exp s = Some (e, r) -> length r <= length s.
Proof.
  destruct s as [|c s]; simpl.
  - intros H; inversion H; subst. auto.
  - destruct ((c =? 101) || (c =? 69))%N.
    + destruct s as [|g r0].
      * simpl. discriminate.
      * destruct ((g =? 43) || (g =? 45))%N.
        -- pose proof (digits_length r0) as L.
           destruct (digits r0) as [[|d ds] r']; [discriminate|].
           intros H; inversion H; subst. simpl in *. lia.
        -- pose proof (digits_length (g :: r0)) as L.
           destruct (digits (g :: r0)) as [[|d ds] r']; [discriminate|].
           intros H; inversion H; subst. simpl in *. lia.
    + intros H; inversion H; subst. auto.
Qed.

Lemma parse_number_consumes s l r :
  parse_number s = Some (l, r) -> length r < length s.
Proof.
  unfold parse_number.
  set (p := match s with
            | [] => ([], s)
            | c :: r0 => if (c =? 45)%N then ([c], r0) else ([], s)
            end).
  assert (Hp : length (snd p) <= length s).
  { unfold p. destruct s as [|c r0]; simpl; auto.
    destruct (c =? 45)%N; simpl; lia. }
  destruct p as [sign s1]. simpl in Hp.
  destruct (parse_int s1) as [[i s2]|] eqn:Ei; [|discriminate].
  destruct (parse_frac s2) as [[f s3]|] eqn:Ef; [|discriminate].
  destruct (parse_exp s3) as [[e s4]|] eqn:Ee; [|discriminate].
  intros H; inversion H; subst.
  apply parse_int_consumes in Ei. apply parse_frac_length in Ef.
  apply parse_exp_length in Ee. lia.
Qed.

Lemma expect_length w s r : expect w s = Some r -> length r <= length s.
Proof.
  revert s. induction w as [|a w IH]; intros [|b s]; simpl; try discriminate.
  - intros H; inversion H; auto.
  - intros H; inversion H; auto.
  - destruct (a =? b)%N; [|discriminate]. intros H. apply IH in H. lia.
Qed.

Ltac note_skip x :=
  lazymatch goal with
  | _ : length (skip_ws x) <= length x |- _ => fail
  | _ => pose proof (skip_ws_length x)
  end.

Ltac note_skips :=
  repeat match goal with
         | H : context [skip_ws ?x] |- _ => note_skip x
         | |- context [skip_ws ?x] => note_skip x
         end.

Ltac use_lengths :=
  note_skips;
  repeat match goal with
         | H : parse_string _ = Some _ |- _ => apply parse_string_consumes in H
         | H : parse_number _ = Some _ |- _ => apply parse_number_consumes in H
         | H : expect _ _ = Some _ |- _ => apply expect_length in H
         | H : skip_ws ?x = _, L : length (skip_ws ?x) <= _ |- _ =>
             rewrite H in L; clear H
         end.

Lemma parse_consumes n :
  (forall s v r, parse_value n s = Some (v, r) -> length r < length s)
  /\ (forall s vs r, parse_elements n s = Some (vs, r) -> length r < length s)
  /\ (forall s ms r, parse_members n s = Some (ms, r) -> length r < length s).
Proof.
  induction n as [|n (IHv & IHe & IHm)].
  - repeat split; intros; discriminate.
  - split; [|split].
    + intros s v r H. cbn [parse_value] in H. break_match_in H;
        inversion H; subst; clear H; note_skips;
        repeat match goal with
               | H : parse_members n _ = Some _ |- _ => apply IHm in H
               | H : parse_elements n _ = Some _ |- _ => apply IHe in H
               end;
        use_lengths; simpl in *; lia.
    + intros s vs r H. cbn [parse_elements] in H. break_match_in H;
        inversion H; subst; clear H; note_skips;
        repeat match goal with
               | H : parse_value n _ = Some _ |- _ => apply IHv in H
               | H : parse_elements n _ = Some _ |- _ => apply IHe in H
               end;
        use_lengths; simpl in *; lia.
    + intros s ms r H. cbn [parse_members] in H. break_match_in H;
        inversion H; subst; clear H; note_skips;
        repeat match goal with
               | H : parse_value n _ = Some _ |- _ => apply IHv in H
               | H : parse_members n _ = Some _ |- _ => apply IHm in H
               end;
        use_lengths; simpl in *; lia.
Qed.

Ltac use_parses :=
  repeat match goal with
         | H : parse_value ?k _ = Some _ |- _ =>
             apply (proj1 (parse_consumes k)) in H
         | H : parse_elements ?k _ = Some _ |- _ =>
             apply (proj1 (proj2 (parse_consumes k))) in H
         | H : parse_members ?k _ = Some _ |- _ =>
             apply (proj2 (proj2 (parse_consumes k))) in H
         end.

Ltac bounds := use_parses; use_lengths; simpl in *; lia.

(** Fuel above twice the length of the text changes nothing. *)
Lemma parse_fuel n :
  (forall s m, 2 * length s < n -> 2 * length s < m ->
               parse_value n s = parse_value m s)
  /\ (forall s m, 2 * length s + 1 < n -> 2 * length s + 1 < m ->
                  parse_elements n s = parse_elements m s)
  /\ (forall s m, 2 * length s + 1 < n -> 2 * length s + 1 < m ->
                  parse_members n s = parse_members m s).
Proof.
  induction n as [|n (IHv & IHe & IHm)].
  - repeat split; intros; lia.
  - split; [|split]; intros s [|m] Hn Hm; try lia.
    + cbn [parse_value].
      repeat first
        [ reflexivity
        | match goal with
          | |- context [parse_elements n ?t] => rewrite (IHe t m) by bounds
          | |- context [parse_members n ?t] => rewrite (IHm t m) by bounds
          end
        | match goal with
          | |- context [match ?x with _ => _ end] => destruct x eqn:?
          end ].
    + cbn [parse_elements].
      repeat first
        [ reflexivity
        | match goal with
          | |- context [parse_value n ?t] => rewrite (IHv t m) by bounds
          | |- context [parse_elements n ?t] => rewrite (IHe t m) by bounds
          end
        | match goal with
          | |- context [match ?x with _ => _ end] => destruct x eqn:?
          end ].
    + cbn [parse_members].
      repeat first
        [ reflexivity
        | match goal with
          | |- context [parse_value n ?t] => rewrite (IHv t m) by bounds
          | |- context [parse_members n ?t] => rewrite (IHm t m) by bounds
          end
        | match goal with
          | |- context [match ?x with _ => _ end] => destruct x eqn:?
          end ].
Qed.

Lemma parse_value_fuel n s :
  2 * length s < n -> parse_value n s = parse_value (S (2 * length s)) s.
Proof. intros H. apply (proj1 (parse_fuel n)); lia. Qed.

(** [parse] gives what any larger fuel gives. *)
Lemma parse_any_fuel n text :
  2 * length (skip_ws text) < n ->
  parse text
  = match parse_value n (skip_ws text) with
    | Some (v, r) => match skip_ws r with [] => Some v | _ :: _ => None end
    | None => None
    end.
Proof.
  intros H. unfold parse.
  rewrite (@parse_value_fuel n (skip_ws text) H). reflexivity.
Qed.

End Fuel.

(** ** What JSON.parse consumes *)

Module Stable.

Import Fuel.

Lemma same_head_app p r r' :
  same_head r r' -> same_head (p ++ r) (p ++ r').
Proof. unfold same_head. destruct p; simpl; auto. Qed.

Lemma same_head_cons c r r' : same_head (c :: r) (c :: r').
Proof. reflexivity. Qed.

Lemma skip_ws_split s :
  exists w, s = w ++ skip_ws s /\ forallb is_ws w = true.
Proof.
  induction s as [|c s (w & E & Hw)].
  - exists []. auto.
  - simpl. destruct (is_ws c) eqn:Ec.
    + exists (c :: w). simpl. rewrite Ec, Hw. rewrite <- E. auto.
    + exists []. auto.
Qed.

Lemma skip_ws_head s c r : skip_ws s = c :: r -> is_ws c = false.
Proof.
  induction s as [|x s IH]; simpl; [discriminate|].
  destruct (is_ws x) eqn:Ex; auto. intros H. inversion H; subst. assumption.
Qed.

Lemma skip_ws_app w x : forallb is_ws w = true -> skip_ws (w ++ x) = skip_ws x.
Proof.
  induction w as [|c w IH]; simpl; auto.
  rewrite andb_true_iff. intros [Hc Hw]. rewrite Hc. auto.
Qed.

(** What [skip_ws] does in front of a character that is not white space,
    whatever follows it. *)
Lemma skip_ws_found s c r :
  skip_ws s = c :: r ->
  exists w, s = w ++ c :: r /\ forall x, skip_ws (w ++ c :: x) = c :: x.
Proof.
  intros H. destruct (skip_ws_split s) as (w & E & Hw).
  exists w. rewrite H in E. split; [exact E|].
  intros x. rewrite skip_ws_app by assumption.
  simpl. rewrite (@skip_ws_head s c r H). reflexivity.
Qed.

Lemma parse_string_stable s :
  forall k r,
    parse_string s = Some (k, r) ->
    exists p, s = p ++ r /\ forall r', parse_string (p ++ r') = Some (k, r').
Proof.
  induction s as [s IH] using (induction_ltof1 _ (@length char16)).
  unfold ltof in IH. intros k r H.
  destruct s as [|c s]; [discriminate|]. cbn [parse_string] in H.
  destruct (c =? 34)%N eqn:E34.
  { inversion H; subst. exists [c]. split; [reflexivity|].
    intros r'. cbn [app parse_string]. rewrite E34. reflexivity. }
  destruct (c =? 92)%N eqn:E92.
  - destruct s as [|e r1]; [discriminate|].
    destruct (e =? 117)%N eqn:Eu.
    + destruct r1 as [|a [|b [|c' [|d r2]]]]; try discriminate.
      destruct (hex4 a b c' d) as [u|] eqn:Eh; [|discriminate].
      apply consfst_inv in H. destruct H as (k' & H & ->).
      apply IH in H; [|simpl; lia]. destruct H as (p & -> & Hp).
      exists (c :: e :: a :: b :: c' :: d :: p). split; [reflexivity|].
      intros r'. cbn [app parse_string]. rewrite E34, E92, Eu, Eh, Hp.
      reflexivity.
    + destruct (unescape e) as [u|] eqn:Ee; [|discriminate].
      apply consfst_inv in H. destruct H as (k' & H & ->).
      apply IH in H; [|simpl; lia]. destruct H as (p & -> & Hp).
      exists (c :: e :: p). split; [reflexivity|].
      intros r'. cbn [app parse_string]. rewrite E34, E92, Eu, Ee, Hp.
      reflexivity.
  - destruct (c <? 32)%N eqn:Ec; [discriminate|].
    apply consfst_inv in H. destruct H as (k' & H & ->).
    apply IH in H; [|simpl; lia]. destruct H as (p & -> & Hp).
    exists (c :: p). split; [reflexivity|].
    intros r'. cbn [app parse_string]. rewrite E34, E92, Ec, Hp. reflexivity.
Qed.

Lemma expect_stable w s r :
  expect w s = Some r ->
  exists p, s = p ++ r /\ forall r', expect w (p ++ r') = Some r'.
Proof.
  revert s. induction w as [|a w IH]; intros s H.
  - exists []. destruct s; inversion H; subst; auto.
  - destruct s as [|b s]; [discriminate|]. cbn [expect] in H.
    destruct (a =? b)%N eqn:E; [|discriminate].
    destruct (IH s H) as (p & -> & Hp). exists (b :: p).
    split; [reflexivity|]. intros r'. cbn [app expect]. rewrite E. apply Hp.
Qed.

Lemma digits_spec s :
  s = fst (digits s) ++ snd (digits s)
  /\ forallb is_digit (fst (digits s)) = true
  /\ no_digit_ahead (snd (digits s)).
Proof.
  induction s as [|c s (E & Hd & Hn)]; simpl; auto.
  destruct (is_digit c) eqn:Ec.
  - destruct (digits s) as [ds r]. simpl in *. rewrite Ec, Hd, <- E. auto.
  - simpl. auto.
Qed.

Lemma digits_app ds r :
  forallb is_digit ds = true -> no_digit_ahead r -> digits (ds ++ r) = (ds, r).
Proof.
  induction ds as [|c ds IH]; simpl.
  - intros _ Hr. destruct r as [|c r]; simpl in *; auto. rewrite Hr. reflexivity.
  - rewrite andb_true_iff. intros [Hc Hds] Hr. rewrite Hc, IH; auto.
Qed.

Lemma no_digit_same_head r r' :
  same_head r r' -> no_digit_ahead r -> no_digit_ahead r'.
Proof.
  unfold same_head. destruct r, r'; simpl; intros H; inversion H; subst; auto.
Qed.

Lemma digits_stable s ds r :
  digits s = (ds, r) ->
  s = ds ++ r
  /\ forall r', same_head r r' -> digits (ds ++ r') = (ds, r').
Proof.
  intros H. destruct (digits_spec s) as (E & Hd & Hn).
  rewrite H in *. simpl in *. split; [exact E|].
  intros r' Hs. apply digits_app; auto. eapply no_digit_same_head; eauto.
Qed.

Lemma same_head_nil r' : same_head [] r' -> r' = [].
Proof. destruct r'; [reflexivity|discriminate]. Qed.

Lemma same_head_some c r r' : same_head (c :: r) r' -> exists x, r' = c :: x.
Proof.
  unfold same_head. destruct r' as [|d x]; simpl; intros H; inversion H.
  eauto.
Qed.

Lemma parse_int_stable s i r :
  parse_int s = Some (i, r) ->
  s = i ++ r
  /\ i <> []
  /\ forall r', same_head r r' -> parse_int (i ++ r') = Some (i, r').
Proof.
  destruct s as [|c s]; [discriminate|]. cbn [parse_int].
  destruct (c =? 48)%N eqn:E0.
  - intros H; inversion H; subst. repeat split; try discriminate.
    intros r' _. cbn [app parse_int]. rewrite E0. reflexivity.
  - destruct (is_digit c) eqn:Ec; [|discriminate].
    destruct (digits s) as [ds r0] eqn:Ed.
    intros H; inversion H; subst.
    destruct (@digits_stable _ _ _ Ed) as [-> Hd].
    repeat split; try discriminate.
    intros r' Hr. cbn [app parse_int]. rewrite E0, Ec, (Hd r' Hr). reflexivity.
Qed.

Lemma parse_frac_stable s f r :
  parse_frac s = Some (f, r) ->
  s = f ++ r
  /\ forall r', same_head r r' -> parse_frac (f ++ r') = Some (f, r').
Proof.
  destruct s as [|c s]; cbn [parse_frac].
  - intros H; inversion H; subst. split; [reflexivity|].
    intros r' Hr. rewrite (@same_head_nil _ Hr). reflexivity.
  - destruct (c =? 46)%N eqn:Ep.
    + destruct (digits s) as [[|d ds] r0] eqn:Ed; [discriminate|].
      intros H; inversion H; subst.
      destruct (@digits_stable _ _ _ Ed) as [-> Hd]. split; [reflexivity|].
      intros r' Hr. cbn [app parse_frac]. rewrite Ep.
      change (d :: ds ++ r') with ((d :: ds) ++ r'). rewrite (Hd r' Hr).
      reflexivity.
    + intros H; inversion H; subst. split; [reflexivity|].
      intros r' Hr. destruct (@same_head_some _ _ _ Hr) as [x ->].
      cbn [app parse_frac]. rewrite Ep. reflexivity.
Qed.

Lemma digit_no_sign d :
  is_digit d = true -> ((d =? 43) || (d =? 45))%N = false.
Proof.
  unfold is_digit. rewrite andb_true_iff, !N.leb_le. intros [H1 H2].
  apply orb_false_iff. split; apply N.eqb_neq; lia.
Qed.

Lemma digits_head s d ds r : digits s = (d :: ds, r) -> is_digit d = true.
Proof.
  intros H. destruct (digits_spec s) as (_ & Hd & _). rewrite H in Hd.
  simpl in Hd. apply andb_true_iff in Hd. tauto.
Qed.

Lemma parse_exp_stable s e r :
  parse_exp s = Some (e, r) ->
  s = e ++ r
  /\ forall r', same_head r r' -> parse_exp (e ++ r') = Some (e, r').
Proof.
  destruct s as [|c s]; cbn [parse_exp].
  - intros H; inversion H; subst. split; [reflexivity|].
    intros r' Hr. rewrite (@same_head_nil _ Hr). reflexivity.
  - destruct ((c =? 101) || (c =? 69))%N eqn:Ee.
    + destruct s as [|g r0].
      * simpl. discriminate.
      * destruct ((g =? 43) || (g =? 45))%N eqn:Eg.
        -- destruct (digits r0) as [[|d ds] r1] eqn:Ed; [discriminate|].
           intros H; inversion H; subst.
           destruct (@digits_stable _ _ _ Ed) as [-> Hd]. split; [reflexivity|].
           intros r' Hr. cbn [app parse_exp]. rewrite Ee, Eg.
           change (d :: ds ++ r') with ((d :: ds) ++ r'). rewrite (Hd r' Hr).
           reflexivity.
        -- destruct (digits (g :: r0)) as [[|d ds] r1] eqn:Ed; [discriminate|].
           intros H; inversion H; subst.
           destruct (@digits_stable _ _ _ Ed) as [E Hd].
           split; [rewrite E; reflexivity|].
           intros r' Hr. cbn [app parse_exp]. rewrite Ee.
           rewrite (@digit_no_sign d (@digits_head _ _ _ _ Ed)).
           change (d :: ds ++ r') with ((d :: ds) ++ r'). rewrite (Hd r' Hr).
           reflexivity.
    + intros H; inversion H; subst. split; [reflexivity|].
      intros r' Hr. destruct (@same_head_some _ _ _ Hr) as [x ->].
      cbn [app parse_exp]. rewrite Ee. reflexivity.
Qed.

Lemma parse_number_stable s lexeme r :
  parse_number s = Some (lexeme, r) ->
  exists p,
    s = p ++ r
    /\ forall r', same_head r r' -> parse_number (p ++ r') = Some (lexeme, r').
Proof.
  intros H. unfold parse_number in H.
  destruct s as [|c s]; [discriminate|].
  destruct (c =? 45)%N eqn:Em.
  - destruct (parse_int s) as [[i s2]|] eqn:Ei; [|discriminate].
    destruct (parse_frac s2) as [[f s3]|] eqn:Ef; [|discriminate].
    destruct (parse_exp s3) as [[e s4]|] eqn:Ee; [|discriminate].
    inversion H; subst.
    destruct (@parse_int_stable _ _ _ Ei) as (-> & _ & Hi).
    destruct (@parse_frac_stable _ _ _ Ef) as (-> & Hf).
    destruct (@parse_exp_stable _ _ _ Ee) as (-> & He).
    exists (c :: i ++ f ++ e). split.
    { cbn [app]. rewrite <- !app_assoc. reflexivity. }
    intros r' Hr.
    replace ((c :: i ++ f ++ e) ++ r') with (c :: i ++ f ++ e ++ r')
      by (cbn [app]; rewrite <- !app_assoc; reflexivity).
    unfold parse_number. rewrite Em.
    rewrite Hi by (apply same_head_app, same_head_app, Hr).
    rewrite Hf by (apply same_head_app, Hr).
    rewrite He by exact Hr. reflexivity.
  - destruct (parse_int (c :: s)) as [[i s2]|] eqn:Ei; [|discriminate].
    destruct (parse_frac s2) as [[f s3]|] eqn:Ef; [|discriminate].
    destruct (parse_exp s3) as [[e s4]|] eqn:Ee; [|discriminate].
    inversion H; subst.
    destruct (@parse_int_stable _ _ _ Ei) as (E & Hne & Hi).
    destruct (@parse_frac_stable _ _ _ Ef) as (-> & Hf).
    destruct (@parse_exp_stable _ _ _ Ee) as (-> & He).
    exists (i ++ f ++ e). split.
    { rewrite E. rewrite <- !app_assoc. reflexivity. }
    intros r' Hr. destruct i as [|c0 i]; [congruence|].
    inversion E; subst c0.
    replace (((c :: i) ++ f ++ e) ++ r') with (c :: i ++ f ++ e ++ r')
      by (cbn [app]; rewrite <- !app_assoc; reflexivity).
    unfold parse_number. rewrite Em.
    change (c :: i ++ f ++ e ++ r') with ((c :: i) ++ f ++ e ++ r').
    rewrite Hi by (apply same_head_app, same_head_app, Hr).
    rewrite Hf by (apply same_head_app, Hr).
    rewrite He by exact Hr. reflexivity.
Qed.

Lemma consumed_nonempty (p r s : jsstring) :
  s = p ++ r -> length r < length s -> exists c p', p = c :: p'.
Proof.
  intros -> H. destruct p as [|c p']; [simpl in H; lia|eauto].
Qed.

(** What [skip_ws] does in front of a text it stops at, whatever follows
    that text. *)
Lemma skip_ws_rejoin s p r :
  skip_ws s = p ++ r -> p <> [] ->
  exists w, s = w ++ p ++ r /\ forall x, skip_ws (w ++ p ++ x) = p ++ x.
Proof.
  intros H Hp. destruct p as [|c p]; [congruence|].
  destruct (@skip_ws_found s c (p ++ r) H) as (w & E & Hw).
  exists w. split; [exact E|]. intros x. apply Hw.
Qed.

Section Step.

Variable n : nat.
Hypothesis IHv : value_stable n.
Hypothesis IHe : elements_stable n.
Hypothesis IHm : members_stable n.

Lemma elements_step : elements_stable (S n).
Proof.
  intros s vs r H. cbn [parse_elements] in H.
  destruct (parse_value n s) as [[v r0]|] eqn:Ev; [|discriminate].
  destruct (skip_ws r0) as [|c r1] eqn:Es; [discriminate|].
  destruct (IHv _ Ev) as (p0 & -> & Hp0 & _).
  destruct (@skip_ws_found _ _ _ Es) as (w & -> & Hw).
  destruct (c =? 44)%N eqn:Ec.
  - destruct (parse_elements n (skip_ws r1)) as [[vs' r2]|] eqn:Ee;
      [|discriminate].
    inversion H; subst. pose proof Ee as Ee'.
    apply (proj1 (proj2 (parse_consumes n))) in Ee'.
    destruct (IHe _ Ee) as (p1 & E1 & Hp1).
    destruct (@consumed_nonempty _ _ _ E1 Ee') as (h & p1' & ->).
    destruct (@skip_ws_rejoin r1 (h :: p1') r E1) as (w1 & -> & Hw1);
      [discriminate|].
    exists (p0 ++ w ++ c :: w1 ++ h :: p1'). split.
    { repeat (rewrite <- ?app_assoc; cbn [app]). reflexivity. }
    intros r'. repeat (rewrite <- ?app_assoc; cbn [app]).
    cbn [parse_elements].
    rewrite Hp0 by (right; apply same_head_app, same_head_cons).
    rewrite Hw, Ec.
    change (h :: p1' ++ r') with ((h :: p1') ++ r').
    rewrite Hw1, Hp1. reflexivity.
  - destruct (c =? 93)%N eqn:Eb; [|discriminate].
    inversion H; subst.
    exists (p0 ++ w ++ [c]). split.
    { repeat (rewrite <- ?app_assoc; cbn [app]). reflexivity. }
    intros r'. repeat (rewrite <- ?app_assoc; cbn [app]).
    cbn [parse_elements].
    rewrite Hp0 by (right; apply same_head_app, same_head_cons).
    rewrite Hw, Ec, Eb. reflexivity.
Qed.

Lemma members_step : members_stable (S n).
Proof.
  intros s ms r H. cbn [parse_members] in H.
  destruct s as [|q r0]; [discriminate|].
  destruct (negb (q =? 34)%N) eqn:Eq; [discriminate|].
  destruct (parse_string r0) as [[k r1]|] eqn:Ek; [|discriminate].
  destruct (skip_ws r1) as [|c r2] eqn:Es1; [discriminate|].
  destruct (negb (c =? 58)%N) eqn:Ec; [discriminate|].
  destruct (parse_value n (skip_ws r2)) as [[v r3]|] eqn:Ev; [|discriminate].
  destruct (skip_ws r3) as [|d r4] eqn:Es3; [discriminate|].
  destruct (@parse_string_stable _ _ _ Ek) as (pk & -> & Hpk).
  destruct (@skip_ws_found _ _ _ Es1) as (w1 & -> & Hw1).
  pose proof Ev as Ev'. apply (proj1 (parse_consumes n)) in Ev'.
  destruct (IHv _ Ev) as (pv & E2 & Hpv & _).
  destruct (@consumed_nonempty _ _ _ E2 Ev') as (hv & pv' & ->).
  destruct (@skip_ws_rejoin r2 (hv :: pv') r3 E2) as (w2 & -> & Hw2);
    [discriminate|].
  destruct (@skip_ws_found _ _ _ Es3) as (w3 & -> & Hw3).
  destruct (d =? 44)%N eqn:Ed.
  - destruct (parse_members n (skip_ws r4)) as [[ms' r5]|] eqn:Em;
      [|discriminate].
    inversion H; subst. pose proof Em as Em'.
    apply (proj2 (proj2 (parse_consumes n))) in Em'.
    destruct (IHm _ Em) as (pm & E4 & Hpm & (pm0 & Epm)).
    destruct (@consumed_nonempty _ _ _ E4 Em') as (hm & pm' & Ehm).
    rewrite Ehm in *.
    destruct (@skip_ws_rejoin r4 (hm :: pm') r E4) as (w4 & -> & Hw4);
      [discriminate|].
    exists (q :: pk ++ w1 ++ c :: w2 ++ (hv :: pv') ++ w3 ++ d :: w4
              ++ hm :: pm').
    split; [|split].
    { repeat (rewrite <- ?app_assoc; cbn [app]). reflexivity. }
    { intros r'. repeat (rewrite <- ?app_assoc; cbn [app]).
      cbn [parse_members]. rewrite Eq, Hpk, Hw1, Ec.
      change (hv :: pv' ++ ?x) with ((hv :: pv') ++ x). rewrite Hw2.
      rewrite Hpv by (right; apply same_head_app, same_head_cons).
      rewrite Hw3, Ed.
      change (hm :: pm' ++ r') with ((hm :: pm') ++ r').
      rewrite Hw4, Hpm. reflexivity. }
    exists (q :: pk ++ w1 ++ c :: w2 ++ (hv :: pv') ++ w3 ++ d :: w4 ++ pm0).
    rewrite Epm. repeat (rewrite <- ?app_assoc; cbn [app]). reflexivity.
  - destruct (d =? 125)%N eqn:Eb; [|discriminate].
    inversion H; subst.
    exists (q :: pk ++ w1 ++ c :: w2 ++ (hv :: pv') ++ w3 ++ [d]).
    split; [|split].
    { repeat (rewrite <- ?app_assoc; cbn [app]). reflexivity. }
    { intros r'. repeat (rewrite <- ?app_assoc; cbn [app]).
      cbn [parse_members]. rewrite Eq, Hpk, Hw1, Ec.
      change (hv :: pv' ++ ?x) with ((hv :: pv') ++ x). rewrite Hw2.
      rewrite Hpv by (right; apply same_head_app, same_head_cons).
      rewrite Hw3, Ed, Eb. reflexivity. }
    exists (q :: pk ++ w1 ++ c :: w2 ++ (hv :: pv') ++ w3).
    apply N.eqb_eq in Eb. subst d.
    repeat (rewrite <- ?app_assoc; cbn [app]). reflexivity.
Qed.

Lemma value_step : value_stable (S n).
Proof.
  intros s v r H. pose proof H as Hc.
  apply (proj1 (parse_consumes (S n))) in Hc.
  cbn [parse_value] in H.
  destruct s as [|c r0]; [discriminate|].
  destruct (c =? 34)%N eqn:E1.
  { destruct (parse_string r0) as [[str r1]|] eqn:Ek; [|discriminate].
    inversion H; subst.
    destruct (@parse_string_stable _ _ _ Ek) as (pk & -> & Hpk).
    exists (c :: pk). split; [reflexivity|]. split; [|discriminate].
    intros r' _. cbn [app parse_value]. rewrite E1, Hpk. reflexivity. }
  destruct (c =? 123)%N eqn:E2.
  { destruct (skip_ws r0) as [|d r1] eqn:Es; [discriminate|].
    destruct (@skip_ws_found _ _ _ Es) as (w & -> & Hw).
    pose proof E2 as Ec. apply N.eqb_eq in Ec.
    destruct (d =? 125)%N eqn:Ed.
    - inversion H; subst. exists (123%N :: w ++ [d]). split; [|split].
      { repeat (rewrite <- ?app_assoc; cbn [app]). reflexivity. }
      { intros r' _. repeat (rewrite <- ?app_assoc; cbn [app]).
        cbn [parse_value]. rewrite E1, E2, Hw, Ed. reflexivity. }
      intros _. exists w. apply N.eqb_eq in Ed. subst d. reflexivity.
    - destruct (parse_members n (d :: r1)) as [[ms r2]|] eqn:Em;
        [|discriminate].
      inversion H; subst. pose proof Em as Em'.
      apply (proj2 (proj2 (parse_consumes n))) in Em'.
      destruct (IHm _ Em) as (pm & E & Hpm & (pm0 & Epm)).
      destruct (@consumed_nonempty _ _ _ E Em') as (h & pm' & Eh).
      rewrite Eh in *. inversion E; subst h r1.
      exists (123%N :: w ++ d :: pm'). split; [|split].
      { repeat (rewrite <- ?app_assoc; cbn [app]). reflexivity. }
      { intros r' _. repeat (rewrite <- ?app_assoc; cbn [app]).
        cbn [parse_value]. rewrite E1, E2, Hw, Ed.
        change (d :: pm' ++ r') with ((d :: pm') ++ r'). rewrite Hpm.
        reflexivity. }
      intros _. exists (w ++ pm0). rewrite Epm.
      repeat (rewrite <- ?app_assoc; cbn [app]). reflexivity. }
  destruct (c =? 91)%N eqn:E3.
  { destruct (skip_ws r0) as [|d r1] eqn:Es; [discriminate|].
    destruct (@skip_ws_found _ _ _ Es) as (w & -> & Hw).
    destruct (d =? 93)%N eqn:Ed.
    - inversion H; subst. exists (c :: w ++ [d]). split; [|split].
      { repeat (rewrite <- ?app_assoc; cbn [app]). reflexivity. }
      { intros r' _. repeat (rewrite <- ?app_assoc; cbn [app]).
        cbn [parse_value]. rewrite E1, E2, E3, Hw, Ed. reflexivity. }
      discriminate.
    - destruct (parse_elements n (d :: r1)) as [[vs r2]|] eqn:Ee;
        [|discriminate].
      inversion H; subst. pose proof Ee as Ee'.
      apply (proj1 (proj2 (parse_consumes n))) in Ee'.
      destruct (IHe _ Ee) as (pe & E & Hpe).
      destruct (@consumed_nonempty _ _ _ E Ee') as (h & pe' & ->).
      inversion E; subst h r1.
      exists (c :: w ++ d :: pe'). split; [|split].
      { repeat (rewrite <- ?app_assoc; cbn [app]). reflexivity. }
      { intros r' _. repeat (rewrite <- ?app_assoc; cbn [app]).
        cbn [parse_value]. rewrite E1, E2, E3, Hw, Ed.
        change (d :: pe' ++ r') with ((d :: pe') ++ r'). rewrite Hpe.
        reflexivity. }
      discriminate. }
  destruct (c =? 116)%N eqn:E4.
  { destruct (expect (lit "rue") r0) as [r1|] eqn:Ex; [|discriminate].
    inversion H; subst.
    destruct (@expect_stable _ _ _ Ex) as (px & -> & Hpx).
    exists (c :: px). split; [reflexivity|]. split; [|discriminate].
    intros r' _.
    cbn [app parse_value]. rewrite E1, E2, E3, E4, Hpx. reflexivity. }
  destruct (c =? 102)%N eqn:E5.
  { destruct (expect (lit "alse") r0) as [r1|] eqn:Ex; [|discriminate].
    inversion H; subst.
    destruct (@expect_stable _ _ _ Ex) as (px & -> & Hpx).
    exists (c :: px). split; [reflexivity|]. split; [|discriminate].
    intros r' _.
    cbn [app parse_value]. rewrite E1, E2, E3, E4, E5, Hpx. reflexivity. }
  destruct (c =? 110)%N eqn:E6.
  { destruct (expect (lit "ull") r0) as [r1|] eqn:Ex; [|discriminate].
    inversion H; subst.
    destruct (@expect_stable _ _ _ Ex) as (px & -> & Hpx).
    exists (c :: px). split; [reflexivity|]. split; [|discriminate].
    intros r' _.
    cbn [app parse_value]. rewrite E1, E2, E3, E4, E5, E6, Hpx.
    reflexivity. }
  destruct (parse_number (c :: r0)) as [[lexeme r1]|] eqn:En; [|discriminate].
  inversion H; subst.
  destruct (@parse_number_stable _ _ _ En) as (pn & E & Hpn).
  destruct (@consumed_nonempty _ _ _ E Hc) as (h & pn' & ->).
  inversion E; subst h r0.
  exists (c :: pn'). split; [reflexivity|]. split; [|discriminate].
  intros r' [Hnum|Hr]; [discriminate|].
  cbn [app parse_value]. rewrite E1, E2, E3, E4, E5, E6.
  change (c :: pn' ++ r') with ((c :: pn') ++ r'). rewrite (Hpn r' Hr).
  reflexivity.
Qed.

End Step.

(** The result of a parser does not depend on what follows the text it
    consumed, as long as, after a number, the next character is the
    same. *)
Lemma parse_stable n :
  value_stable n /\ elements_stable n /\ members_stable n.
Proof.
  induction n as [|n (IHv & IHe & IHm)].
  - repeat split; intros s x r H; discriminate.
  - split; [|split].
    + apply value_step; assumption.
    + apply elements_step; assumption.
    + apply members_step; assumption.
Qed.

Lemma skip_ws_nil r : skip_ws r = [] -> forallb is_ws r = true.
Proof.
  induction r as [|c r IH]; simpl; auto.
  destruct (is_ws c); [auto|discriminate].
Qed.

Lemma skip_ws_all r : forallb is_ws r = true -> skip_ws r = [].
Proof.
  intros H. rewrite <- (app_nil_r r). rewrite skip_ws_app by assumption.
  reflexivity.
Qed.

(** The text of an object that [parse] accepts: white space, the object
    from its first brace to its last one, white space; and the white space
    on either side can be replaced by any other. *)
Lemma parse_object_shape l v :
  parse l = Some v -> is_object v = true ->
  exists w p r,
    l = w ++ (123%N :: p ++ [125%N]) ++ r
    /\ forallb is_ws w = true
    /\ forallb is_ws r = true
    /\ forall w' r',
         forallb is_ws w' = true -> forallb is_ws r' = true ->
         parse (w' ++ (123%N :: p ++ [125%N]) ++ r') = Some v.
Proof.
  intros H Hobj. unfold parse in H.
  destruct (skip_ws_split l) as (w & El & Hw).
  destruct (parse_value (S (2 * length (skip_ws l))) (skip_ws l))
    as [[v0 r]|] eqn:Ev; [|discriminate].
  destruct (skip_ws r) eqn:Er; [|discriminate]. inversion H; subst v0.
  destruct (proj1 (parse_stable _) _ _ _ Ev) as (P & Es & _ & Hshape).
  destruct (Hshape Hobj) as (p & ->).
  exists w, p, r. split; [etransitivity; [exact El|]; f_equal; exact Es|].
  split; [exact Hw|]. split; [apply skip_ws_nil; exact Er|].
  intros w' r' Hw' Hr'.
  assert (Esk : skip_ws (w' ++ (123%N :: p ++ [125%N]) ++ r')
                = (123%N :: p ++ [125%N]) ++ r').
  { rewrite skip_ws_app by assumption. reflexivity. }
  set (n := S (2 * length (skip_ws l))
            + S (2 * length (skip_ws (w' ++ (123%N :: p ++ [125%N]) ++ r')))).
  assert (Ev' : parse_value n (skip_ws l) = Some (v, r)).
  { rewrite <- Ev. apply (proj1 (parse_fuel n)); unfold n; lia. }
  destruct (proj1 (parse_stable _) _ _ _ Ev') as (P' & Es' & Hst & _).
  assert (P' = 123%N :: p ++ [125%N]).
  { rewrite Es in Es'. apply app_inv_tail in Es'. congruence. }
  subst P'.
  rewrite (@parse_any_fuel n) by (unfold n; lia).
  rewrite Esk, Hst by (left; destruct v; auto; discriminate).
  rewrite skip_ws_all by assumption. reflexivity.
Qed.

End Stable.

(** ** The lines of a trimmed text *)

Module TrimLines.

Import StringFacts Fuel Stable.

Lemma split_cons c s :
  split LF (c :: s)
  = if (c =? LF)%N then [] :: split LF s
    else match split LF s with
         | l :: ls => (c :: l) :: ls
         | [] => [[c]]
         end.
Proof. reflexivity. Qed.

Lemma split_trimStart s :
  split LF (trimStart s) = head_trimmed (split LF s).
Proof.
  induction s as [|c s IH]; [reflexivity|].
  rewrite split_cons. cbn [trimStart].
  destruct (c =? LF)%N eqn:Ec.
  - apply N.eqb_eq in Ec. subst c. cbn [is_white]. exact IH.
  - pose proof (@split_nonempty LF s) as Hne.
    destruct (split LF s) as [|h t] eqn:Es; [congruence|].
    destruct (is_white c) eqn:Ew.
    + rewrite IH. unfold head_trimmed. cbn [drop_blank blank forallb].
      rewrite Ew. cbn [andb]. fold (blank h).
      destruct (blank h); [reflexivity|]. cbn [trimStart]. rewrite Ew.
      reflexivity.
    + rewrite split_cons, Ec, Es. unfold head_trimmed.
      cbn [drop_blank blank forallb]. rewrite Ew. cbn [andb trimStart].
      rewrite Ew. reflexivity.
Qed.

Lemma snoc_last_cons c l l' ls :
  snoc_last c (l :: l' :: ls) = l :: snoc_last c (l' :: ls).
Proof. reflexivity. Qed.

Lemma snoc_last_app c x l : snoc_last c (x ++ [l]) = x ++ [l ++ [c]].
Proof.
  induction x as [|h x IH]; [reflexivity|].
  destruct x as [|h' x]; [reflexivity|].
  change ((h :: h' :: x) ++ [l]) with (h :: h' :: (x ++ [l])).
  rewrite snoc_last_cons. change (h' :: x ++ [l]) with ((h' :: x) ++ [l]).
  rewrite IH. reflexivity.
Qed.

Lemma split_snoc s c :
  split LF (s ++ [c])
  = if (c =? LF)%N then split LF s ++ [[]] else snoc_last c (split LF s).
Proof.
  induction s as [|a s IH].
  - cbn [app]. rewrite split_cons. destruct (c =? LF)%N; reflexivity.
  - cbn [app]. rewrite !split_cons, IH.
    pose proof (@split_nonempty LF s) as Hne.
    destruct (split LF s) as [|h t] eqn:Es; [congruence|].
    destruct (a =? LF)%N; destruct (c =? LF)%N; try reflexivity.
    destruct t as [|h' t]; reflexivity.
Qed.

(** The lines of a text read backwards. *)
Lemma split_rev s : split LF (rev s) = rev (map (@rev char16) (split LF s)).
Proof.
  induction s as [|a s IH]; [reflexivity|].
  cbn [rev]. rewrite split_snoc, split_cons, IH.
  destruct (a =? LF)%N; [reflexivity|].
  pose proof (@split_nonempty LF s) as Hne.
  destruct (split LF s) as [|h t]; [congruence|].
  cbn [map rev]. apply snoc_last_app.
Qed.

Lemma is_ws_white c : is_ws c = true -> is_white c = true.
Proof.
  unfold is_ws. rewrite !orb_true_iff, !N.eqb_eq.
  intros [[[->| ->]| ->]| ->]; reflexivity.
Qed.

Lemma ws_all_white w : forallb is_ws w = true -> forallb is_white w = true.
Proof.
  induction w as [|c w IH]; simpl; auto.
  rewrite !andb_true_iff. intros [Hc Hw]. auto using is_ws_white.
Qed.

Lemma record_line_object l :
  record_line l = true ->
  exists v, parse l = Some v /\ is_object v = true /\ as_message v <> None.
Proof.
  unfold record_line. destruct (parse l) as [v|]; [|discriminate].
  destruct (as_message v) eqn:Em; [|discriminate]. intros _.
  exists v. rewrite Em. repeat split; try discriminate.
  destruct v; try discriminate. reflexivity.
Qed.

Lemma record_line_of_parse l v :
  parse l = Some v -> as_message v <> None -> record_line l = true.
Proof.
  intros Hp Hm. unfold record_line. rewrite Hp.
  destruct (as_message v); congruence.
Qed.

(** Trimming a line that parses as a record, at its start or at its
    end, leaves a line that parses as the same record. *)
Lemma record_line_trimmed l :
  record_line l = true ->
  blank l = false
  /\ (trimStart l <> [] /\ record_line (trimStart l) = true
      /\ parse (trimStart l) = parse l)
  /\ (trimEnd l <> [] /\ record_line (trimEnd l) = true
      /\ parse (trimEnd l) = parse l).
Proof.
  intros H. destruct (record_line_object l H) as (v & Hp & Hobj & Hm).
  destruct (parse_object_shape l Hp Hobj) as (w & p & r & -> & Hw & Hr & Hall).
  assert (Es : trimStart (w ++ (123%N :: p ++ [125%N]) ++ r)
               = [] ++ (123%N :: p ++ [125%N]) ++ r).
  { rewrite trimStart_white by (apply ws_all_white; assumption). reflexivity. }
  assert (Ee : trimEnd (w ++ (123%N :: p ++ [125%N]) ++ r)
               = w ++ (123%N :: p ++ [125%N]) ++ []).
  { rewrite app_nil_r, !app_assoc.
    rewrite trimEnd_white by (apply ws_all_white; assumption).
    change (123%N :: p ++ [125%N]) with ((123%N :: p) ++ [125%N]).
    rewrite app_assoc. apply trimEnd_tight. reflexivity. }
  split; [|split].
  - unfold blank. rewrite forallb_app. cbn [app forallb is_white].
    rewrite andb_false_r. reflexivity.
  - rewrite Es. split; [discriminate|]. rewrite Hp.
    split; [eapply record_line_of_parse; [|exact Hm]|]; apply Hall; auto.
  - rewrite Ee. split; [destruct w; discriminate|]. rewrite Hp.
    split; [eapply record_line_of_parse; [|exact Hm]|]; apply Hall; auto.
Qed.

Section View.

Variable X : Type.
Variable f : jsstring -> X.
Variable good : jsstring -> Prop.
Hypothesis good_trimmed :
  forall l, good l ->
            blank l = false /\ trimStart l <> [] /\ good (trimStart l)
            /\ f (trimStart l) = f l.

(** Trimming the start of a text whose lines are empty or good leaves
    lines that are empty or good, with the same image under [f] once
    the empty ones are filtered out. *)
Lemma head_trimmed_view ls :
  Forall (fun l => l = [] \/ good l) ls ->
  Forall (fun l => l = [] \/ good l) (head_trimmed ls)
  /\ map f (filter truthy (head_trimmed ls)) = map f (filter truthy ls).
Proof.
  induction 1 as [|l ls Hl Hls IH].
  - split; [repeat constructor|reflexivity].
  - destruct Hl as [->|Hl].
    + exact IH.
    + destruct (good_trimmed Hl) as (Hb & Hne & Hg & Hf).
      unfold head_trimmed. cbn [drop_blank]. rewrite Hb. split.
      * constructor; auto.
      * cbn [filter]. destruct (trimStart l) as [|c t] eqn:Et; [congruence|].
        destruct l as [|c' l']; [discriminate|]. cbn [truthy map].
        rewrite <- Hf. reflexivity.
Qed.

End View.

Lemma split_trimEnd s :
  split LF (trimEnd s)
  = rev (map (@rev char16)
           (head_trimmed (rev (map (@rev char16) (split LF s))))).
Proof.
  unfold trimEnd. rewrite split_rev, split_trimStart, split_rev. reflexivity.
Qed.

Lemma filter_truthy_rev ls :
  filter truthy (rev (map (@rev char16) ls))
  = rev (map (@rev char16) (filter truthy ls)).
Proof.
  rewrite filter_rev. f_equal.
  induction ls as [|l ls IH]; [reflexivity|]. cbn [map filter].
  assert (E : truthy (rev l) = truthy l).
  { destruct l as [|c l]; [reflexivity|]. cbn [rev truthy].
    destruct (rev l); reflexivity. }
  rewrite E, IH. destruct (truthy l); reflexivity.
Qed.

Lemma Forall_rev_map (P : jsstring -> Prop) ls :
  Forall (fun l => P (rev l)) ls -> Forall P (rev (map (@rev char16) ls)).
Proof.
  intros H. apply Forall_rev, Forall_map. exact H.
Qed.

(** The lines of a text whose lines are empty or records, once the text
    is trimmed: they are empty or records, and they parse to the same
    records in the same order. *)
Lemma trimmed_lines s :
  Forall (fun l => l = [] \/ record_line l = true) (split LF s) ->
  Forall (fun l => l = [] \/ record_line l = true) (split LF (trim s))
  /\ map parse (filter truthy (split LF (trim s)))
     = map parse (filter truthy (split LF s)).
Proof.
  intros H. unfold trim.
  destruct (@head_trimmed_view _ parse (fun l => record_line l = true))
    with (ls := split LF s) as [Q1 V1].
  { intros l Hl. destruct (record_line_trimmed l Hl) as (Hb & (? & ? & ?) & _).
    auto. }
  { exact H. }
  rewrite <- split_trimStart in Q1, V1.
  set (t := trimStart s) in *.
  destruct (@head_trimmed_view _ (fun l => parse (rev l))
              (fun l => record_line (rev l) = true))
    with (ls := rev (map (@rev char16) (split LF t))) as [Q2 V2].
  { intros l Hl.
    destruct (record_line_trimmed (rev l) Hl) as (Hb & _ & (Hne & Hr & Hp)).
    unfold trimEnd in Hne, Hr, Hp. rewrite rev_involutive in Hne, Hr, Hp.
    split; [|split; [|split]].
    - unfold blank in *. rewrite forallb_rev in Hb. exact Hb.
    - intros E. apply Hne. rewrite E. reflexivity.
    - exact Hr.
    - exact Hp. }
  { apply Forall_rev_map. eapply Forall_impl; [|exact Q1].
    intros l [->|Hl]; [left; reflexivity|right].
    rewrite rev_involutive. exact Hl. }
  rewrite split_trimEnd. split.
  - apply Forall_rev_map. eapply Forall_impl; [|exact Q2].
    intros l [->|Hl]; [left; reflexivity|right; exact Hl].
  - rewrite filter_truthy_rev, map_rev, map_map.
    etransitivity; [apply f_equal; exact V2|].
    rewrite filter_truthy_rev, map_rev, map_map, rev_involutive.
    etransitivity; [|exact V1].
    apply map_ext. intros l. rewrite rev_involutive. reflexivity.
Qed.

End TrimLines.

(** ** The lines written by saveHistory *)

Module Lines.

Import StringFacts StringRoundTrip.

Lemma tidy_plain c s : plain c = true -> tidy (c :: s) = tidy s.
Proof.
  unfold plain. rewrite !andb_true_iff, !negb_true_iff.
  intros [[Hh Hl] Hn]. simpl. rewrite Hh, Hl, Hn. reflexivity.
Qed.

Lemma tidy_pair c d s :
  is_high c = true -> is_low d = true -> tidy (c :: d :: s) = tidy s.
Proof. intros Hh Hl. simpl. rewrite Hh, Hl. reflexivity. Qed.

Lemma tidy_plain_all s : forallb plain s = true -> tidy s = true.
Proof.
  induction s as [|c s IH]; simpl forallb; auto.
  rewrite andb_true_iff. intros [Hc Hs]. rewrite tidy_plain; auto.
Qed.

Lemma tidy_inv c s :
  tidy (c :: s) = true ->
  (plain c = true /\ tidy s = true)
  \/ (exists d s', s = d :: s' /\ is_high c = true /\ is_low d = true
                   /\ tidy s' = true).
Proof.
  simpl. destruct (is_high c) eqn:Hh.
  - destruct s as [|d s']; try discriminate.
    rewrite andb_true_iff. intros [Hd Hs]. right. exists d, s'. auto.
  - rewrite !andb_true_iff, !negb_true_iff. intros [[Hl Hn] Hs]. left.
    unfold plain. rewrite Hh, Hl, Hn. auto.
Qed.

Lemma tidy_app a b : tidy a = true -> tidy b = true -> tidy (a ++ b) = true.
Proof.
  induction a as [|c|c d a IHa IHda] using list_pair_ind; intros Ha Hb.
  - assumption.
  - apply tidy_inv in Ha. destruct Ha as [[Hc _]|(d & s' & E & _)];
      try discriminate.
    simpl app. rewrite tidy_plain; assumption.
  - apply tidy_inv in Ha. destruct Ha as [[Hc Hs]|(d' & s' & E & Hh & Hl & Hs)].
    + change ((c :: d :: a) ++ b) with (c :: ((d :: a) ++ b)).
      rewrite tidy_plain; auto.
    + inversion E; subst d' s'.
      change ((c :: d :: a) ++ b) with (c :: d :: (a ++ b)).
      rewrite tidy_pair; auto.
Qed.

Lemma tidy_no_LF s : tidy s = true -> Forall (fun c => c <> LF) s.
Proof.
  induction s as [|c|c d s IHs IHds] using list_pair_ind; intros H.
  - constructor.
  - apply tidy_inv in H. destruct H as [[Hc _]|(d & s' & E & _)];
      try discriminate.
    constructor; auto. unfold plain in Hc.
    rewrite !andb_true_iff, !negb_true_iff, N.eqb_neq in Hc. tauto.
  - apply tidy_inv in H. destruct H as [[Hc Hs]|(d' & s' & E & Hh & Hl & Hs)].
    + constructor; auto. unfold plain in Hc.
      rewrite !andb_true_iff, !negb_true_iff, N.eqb_neq in Hc. tauto.
    + inversion E; subst d' s'.
      apply high_bounds in Hh. apply low_bounds in Hl.
      constructor; [unfold LF; lia|]. constructor; [unfold LF; lia|]. auto.
Qed.

(** Writing a tidy text to a file and reading it back changes nothing. *)
Lemma toWellFormed_tidy s : tidy s = true -> toWellFormed s = s.
Proof.
  induction s as [|c|c d s IHs IHds] using list_pair_ind; intros H.
  - reflexivity.
  - apply tidy_inv in H. destruct H as [[Hc _]|(d & s' & E & _)];
      try discriminate.
    unfold plain in Hc. rewrite !andb_true_iff, !negb_true_iff in Hc.
    destruct Hc as [[Hh Hl] _]. simpl. rewrite Hh, Hl. reflexivity.
  - apply tidy_inv in H. destruct H as [[Hc Hs]|(d' & s' & E & Hh & Hl & Hs)].
    + unfold plain in Hc. rewrite !andb_true_iff, !negb_true_iff in Hc.
      destruct Hc as [[Hh Hl] _].
      change (toWellFormed (c :: d :: s))
        with (if is_high c
              then if is_low d then c :: d :: toWellFormed s
                   else 65533%N :: toWellFormed (d :: s)
              else if is_low c then 65533%N :: toWellFormed (d :: s)
                   else c :: toWellFormed (d :: s)).
      rewrite Hh, Hl, IHds; auto.
    + inversion E; subst d' s'. simpl. rewrite Hh, Hl, IHs; auto.
Qed.

Lemma hexdigit_plain d : (d < 16)%N -> plain (hexdigit d) = true.
Proof.
  intros H.
  assert (E : In d [0; 1; 2; 3; 4; 5; 6; 7; 8; 9; 10; 11; 12; 13; 14; 15]%N).
  { simpl. lia. }
  simpl in E.
  repeat (destruct E as [<- | E]; [reflexivity|]). contradiction.
Qed.

Lemma uescape_plain c : forallb plain (uescape c) = true.
Proof.
  unfold uescape. cbn [forallb].
  rewrite !hexdigit_plain by (apply N.mod_lt; lia). reflexivity.
Qed.

Lemma escape_unit_plain c :
  is_high c = false -> is_low c = false ->
  forallb plain (escape_unit c) = true.
Proof.
  intros Hh Hl. unfold escape_unit.
  repeat match goal with
         | |- context [(c =? ?k)%N] =>
             destruct (N.eqb_spec c k) as [->|?]; [reflexivity|]
         end.
  destruct (N.ltb_spec c 32).
  - apply uescape_plain.
  - cbn [forallb]. unfold plain. rewrite Hh, Hl.
    assert (E : (c =? LF)%N = false) by (apply N.eqb_neq; unfold LF; lia).
    rewrite E. reflexivity.
Qed.

Lemma tidy_quote_body s : tidy (quote_body s) = true.
Proof.
  induction s as [|c|c d s IHs IHds] using list_pair_ind.
  - reflexivity.
  - rewrite quote_body_one.
    destruct (is_high c) eqn:Hh; [|destruct (is_low c) eqn:Hl];
      rewrite ?app_nil_r; apply tidy_plain_all;
      auto using uescape_plain, escape_unit_plain.
  - rewrite quote_body_two.
    destruct (is_high c) eqn:Hh; [destruct (is_low d) eqn:Hd|
                                   destruct (is_low c) eqn:Hl].
    + rewrite tidy_pair; assumption.
    + apply tidy_app; auto using tidy_plain_all, uescape_plain.
    + apply tidy_app; auto using tidy_plain_all, uescape_plain.
    + apply tidy_app; auto using tidy_plain_all, escape_unit_plain.
Qed.

End Lines.

(** ** JSON.parse after JSON.stringify on records *)

Module RecordRoundTrip.

Import StringFacts StringRoundTrip Lines.

Lemma line_shape m :
  stringify (message_value m)
  = 123%N
    :: member_text (lit "role") (role_name (role m))
         (44%N :: member_text (lit "content") (content m)
            (44%N :: member_text (lit "timestamp") (timestamp m) [125%N])).
Proof.
  destruct m as [r c t]. unfold message_value, member_text.
  cbn [role content timestamp stringify map concat_sep fst snd].
  unfold quote. cbn [lit list_ascii_of_string map app].
  repeat (rewrite <- ?app_assoc; cbn [app]). reflexivity.
Qed.

Lemma parse_value_string n s rest :
  parse_value (S n) (QUOTE :: quote_body s ++ QUOTE :: rest)
  = Some (JStr s, rest).
Proof.
  cbn [parse_value]. change (QUOTE =? 34)%N with true. cbv iota.
  rewrite parse_string_quote_body. reflexivity.
Qed.

(** A member, up to the character that follows it. *)
Lemma parse_member_head n k s d rest :
  parse_members (S (S n)) (member_text k s (d :: rest))
  = match skip_ws (d :: rest) with
    | [] => None
    | d' :: r4 =>
        if (d' =? 44)%N then
          match parse_members (S n) (skip_ws r4) with
          | Some (ms, r5) => Some (add_member k (JStr s) ms, r5)
          | None => None
          end
        else if (d' =? 125)%N then Some ([(k, JStr s)], r4)
        else None
    end.
Proof.
  unfold member_text. remember (S n) as f eqn:Ef.
  cbn [parse_members]. change (negb (QUOTE =? 34)%N) with false. cbv iota.
  rewrite parse_string_quote_body.
  change (skip_ws (58%N :: ?x)) with (58%N :: x). cbv iota.
  change (negb (58 =? 58)%N) with false. cbv iota.
  change (skip_ws (QUOTE :: ?x)) with (QUOTE :: x).
  subst f. rewrite parse_value_string. reflexivity.
Qed.

Lemma skip_ws_member_text k s rest :
  skip_ws (member_text k s rest) = member_text k s rest.
Proof. reflexivity. Qed.

Lemma parse_member_more n k s rest :
  parse_members (S (S n)) (member_text k s (44%N :: rest))
  = match parse_members (S n) (skip_ws rest) with
    | Some (ms, r) => Some (add_member k (JStr s) ms, r)
    | None => None
    end.
Proof. rewrite parse_member_head. reflexivity. Qed.

Lemma parse_member_last n k s rest :
  parse_members (S (S n)) (member_text k s (125%N :: rest))
  = Some ([(k, JStr s)], rest).
Proof. rewrite parse_member_head. reflexivity. Qed.

Lemma line_shape_app m rest :
  stringify (message_value m) ++ rest
  = 123%N
    :: member_text (lit "role") (role_name (role m))
         (44%N :: member_text (lit "content") (content m)
            (44%N :: member_text (lit "timestamp") (timestamp m)
               (125%N :: rest))).
Proof.
  rewrite line_shape. unfold member_text.
  repeat (rewrite <- ?app_assoc; cbn [app]). reflexivity.
Qed.

Lemma parse_value_object n k s rest :
  parse_value (S n) (123%N :: member_text k s rest)
  = match parse_members n (member_text k s rest) with
    | Some (ms, r') => Some (JObj ms, r')
    | None => None
    end.
Proof. reflexivity. Qed.

Lemma parse_value_record n m rest :
  parse_value (5 + n) (stringify (message_value m) ++ rest)
  = Some (message_value m, rest).
Proof.
  rewrite line_shape_app. change (5 + n) with (S (S (S (S (S n))))).
  rewrite parse_value_object.
  rewrite parse_member_more, skip_ws_member_text.
  rewrite parse_member_more, skip_ws_member_text.
  rewrite parse_member_last. destruct m as [r c t]. reflexivity.
Qed.

Lemma line_length m : 5 <= length (stringify (message_value m)).
Proof.
  rewrite line_shape. unfold member_text. cbn [length lit map
    list_ascii_of_string quote_body]. simpl. lia.
Qed.

(** A record is read back as it was written. *)
Lemma parse_stringify_record m :
  parse (stringify (message_value m)) = Some (message_value m).
Proof.
  unfold parse.
  assert (E : skip_ws (stringify (message_value m)) = stringify (message_value m)).
  { rewrite line_shape. reflexivity. }
  rewrite E. pose proof (line_length m) as L.
  replace (S (2 * length (stringify (message_value m))))
    with (5 + (2 * length (stringify (message_value m)) - 4)) by lia.
  rewrite <- (app_nil_r (stringify (message_value m))) at 2.
  rewrite parse_value_record. reflexivity.
Qed.

End RecordRoundTrip.

(** ** The text of the log and its lines *)

Module LogText.

Import StringFacts StringRoundTrip Lines RecordRoundTrip.

Lemma tidy_member_text k s rest :
  forallb plain k = true -> tidy rest = true ->
  tidy (member_text k s rest) = true.
Proof.
  intros Hk Hr. unfold member_text.
  rewrite tidy_plain by reflexivity.
  apply tidy_app; [apply tidy_quote_body|].
  rewrite !tidy_plain by reflexivity.
  apply tidy_app; [apply tidy_quote_body|].
  rewrite tidy_plain by reflexivity. assumption.
Qed.

Lemma tidy_line m : tidy (stringify (message_value m)) = true.
Proof.
  rewrite line_shape. rewrite tidy_plain by reflexivity.
  apply tidy_member_text; [reflexivity|]. rewrite tidy_plain by reflexivity.
  apply tidy_member_text; [reflexivity|]. rewrite tidy_plain by reflexivity.
  apply tidy_member_text; reflexivity.
Qed.

Lemma braced_line m :
  exists b, stringify (message_value m) = 123%N :: b ++ [125%N].
Proof.
  destruct m as [r c t]. unfold message_value.
  cbn [stringify]. eexists. reflexivity.
Qed.

Lemma braced_join ls :
  ls <> [] ->
  Forall (fun l => exists b, l = 123%N :: b ++ [125%N]) ls ->
  exists b, join LF ls = 123%N :: b ++ [125%N].
Proof.
  intros Hne H. induction H as [|l ls [b ->] Hls IH]; try congruence.
  destruct ls as [|l' ls'].
  - exists b. reflexivity.
  - destruct IH as [b' E]; try congruence.
    exists (b ++ 125%N :: LF :: 123%N :: b').
    rewrite join_cons.
    transitivity ((123%N :: b ++ [125%N]) ++ LF :: 123%N :: b' ++ [125%N]).
    + f_equal. f_equal. exact E.
    + cbn [app]. rewrite <- !app_assoc. reflexivity.
Qed.

Lemma toWellFormed_tidy_app l r :
  tidy l = true -> toWellFormed (l ++ r) = l ++ toWellFormed r.
Proof.
  induction l as [|c|c d l IHl IHdl] using list_pair_ind; intros H.
  - reflexivity.
  - apply tidy_inv in H. destruct H as [[Hc _]|(d & s' & E & _)];
      try discriminate.
    unfold plain in Hc. rewrite !andb_true_iff, !negb_true_iff in Hc.
    destruct Hc as [[Hh Hl] _]. cbn [app toWellFormed].
    rewrite Hh, Hl. reflexivity.
  - apply tidy_inv in H. destruct H as [[Hc Hs]|(d' & s' & E & Hh & Hl & Hs)].
    + unfold plain in Hc. rewrite !andb_true_iff, !negb_true_iff in Hc.
      destruct Hc as [[Hh Hl] _].
      change ((c :: d :: l) ++ r) with (c :: ((d :: l) ++ r)).
      cbn [toWellFormed]. rewrite Hh, Hl. rewrite IHdl; auto.
    + inversion E; subst d' s'.
      change (toWellFormed ((c :: d :: l) ++ r))
        with (if is_high c
              then if is_low d then c :: d :: toWellFormed (l ++ r)
                   else 65533%N :: toWellFormed (d :: l ++ r)
              else if is_low c then 65533%N :: toWellFormed (d :: l ++ r)
                   else c :: toWellFormed (d :: l ++ r)).
      rewrite Hh, Hl, IHl; auto.
Qed.

(** The text [saveHistory] assembles is written to the file as it is. *)
Lemma toWellFormed_join ls :
  Forall (fun l => tidy l = true) ls ->
  toWellFormed (join LF ls) = join LF ls.
Proof.
  induction 1 as [|l ls Hl Hls IH]; [reflexivity|].
  destruct ls as [|l' ls'].
  - apply toWellFormed_tidy. assumption.
  - rewrite join_cons, toWellFormed_tidy_app by assumption.
    f_equal. change (toWellFormed (LF :: ?x)) with (LF :: toWellFormed x).
    rewrite IH. reflexivity.
Qed.

Lemma log_lines_tidy ms : Forall (fun l => tidy l = true) (log_lines ms).
Proof.
  unfold log_lines. rewrite map_map. apply Forall_map, Forall_forall.
  intros m _. apply tidy_line.
Qed.

Lemma log_lines_braced ms :
  Forall (fun l => exists b, l = 123%N :: b ++ [125%N]) (log_lines ms).
Proof.
  unfold log_lines. rewrite map_map. apply Forall_map, Forall_forall.
  intros m _. apply braced_line.
Qed.

Lemma trim_log ms : trim (join LF (log_lines ms)) = join LF (log_lines ms).
Proof.
  destruct ms as [|m ms]; [reflexivity|].
  destruct (@braced_join (log_lines (m :: ms))) as [b E].
  - discriminate.
  - apply log_lines_braced.
  - rewrite E. apply trim_tight; reflexivity.
Qed.

Lemma split_log ms :
  filter truthy (split LF (trim (join LF (log_lines ms)))) = log_lines ms.
Proof.
  rewrite trim_log. destruct ms as [|m ms]; [reflexivity|].
  rewrite split_join.
  - apply forallb_filter_id. apply forallb_forall. intros l Hl.
    pose proof (log_lines_braced (m :: ms)) as H.
    rewrite Forall_forall in H. destruct (H l Hl) as [b ->]. reflexivity.
  - discriminate.
  - eapply Forall_impl; [|apply log_lines_tidy]. intros l. apply tidy_no_LF.
Qed.

End LogText.

(** ** Running the history store *)

Module Store.

Import StringFacts StringRoundTrip Lines RecordRoundTrip LogText.

Lemma bind_ok {A B} (m : M A) (k : A -> M B) w a w' :
  m w = (Ok a, w') -> bind m k w = k a w'.
Proof. intros H. unfold bind. rewrite H. reflexivity. Qed.

Lemma bind_throw {A B} (m : M A) (k : A -> M B) w e w' :
  m w = (Throw e, w') -> bind m k w = (Throw e, w').
Proof. intros H. unfold bind. rewrite H. reflexivity. Qed.

Lemma readFileSync_ok w t :
  fs_fail w = [] -> file w = Some t -> readFileSync w = (Ok t, w).
Proof.
  intros Hf Ht. unfold readFileSync, bind, next_fs_fail.
  rewrite Hf, Ht. reflexivity.
Qed.

Lemma writeFileSync_ok w data :
  fs_fail w = [] ->
  writeFileSync data w = (Ok tt, set_file (Some (toWellFormed data)) w).
Proof.
  intros Hf. unfold writeFileSync, bind, next_fs_fail. rewrite Hf. reflexivity.
Qed.

Lemma mapM_parse_log ms w :
  mapM JSON_parse (log_lines ms) w = (Ok (map message_value ms), w).
Proof.
  induction ms as [|m ms IH]; [reflexivity|].
  unfold log_lines in *. cbn [map mapM].
  unfold bind at 1. unfold JSON_parse at 1.
  rewrite parse_stringify_record. cbn [ret].
  unfold bind at 1. rewrite IH. reflexivity.
Qed.

(** Loading a log written for [ms] gives [ms] and changes nothing. *)
Lemma loadHistory_stored w ms :
  stored w ms -> loadHistory w = (Ok (map message_value ms), w).
Proof.
  intros [Hf [[Hn ->]|Hs]]; unfold loadHistory, bind, existsSync.
  - rewrite Hn. reflexivity.
  - rewrite Hs. cbn [negb].
    erewrite readFileSync_ok by eassumption.
    rewrite split_log. apply mapM_parse_log.
Qed.

Lemma saveHistory_stored w ms :
  fs_fail w = [] ->
  saveHistory (map message_value ms) w
  = (Ok tt, set_file (Some (join LF (log_lines ms))) w).
Proof.
  intros Hf. unfold saveHistory. rewrite writeFileSync_ok by assumption.
  fold (log_lines ms). rewrite toWellFormed_join by apply log_lines_tidy.
  reflexivity.
Qed.

Lemma slice_last_all {A} n (l : list A) : length l <= n -> slice_last n l = l.
Proof.
  intros H. unfold slice_last. replace (length l - n) with 0 by lia.
  reflexivity.
Qed.

Lemma slice_last_length {A} n (l : list A) :
  length (slice_last n l) = Nat.min (length l) n.
Proof. unfold slice_last. rewrite length_skipn. lia. Qed.

Lemma slice_last_map {A B} (f : A -> B) n l :
  slice_last n (map f l) = map f (slice_last n l).
Proof. unfold slice_last. rewrite length_map, skipn_map. reflexivity. Qed.

Lemma slice_last_app {A} n (l r : list A) :
  length r <= n ->
  slice_last n (l ++ r) = slice_last (n - length r) l ++ r.
Proof.
  intros H. unfold slice_last. rewrite length_app, skipn_app.
  replace (length l + length r - n) with (length l - (n - length r)) by lia.
  replace (length l - (n - length r) - length l) with 0 by lia.
  reflexivity.
Qed.

Lemma slice_last_slice_last {A} n k (l : list A) :
  k <= n -> slice_last k (slice_last n l) = slice_last k l.
Proof.
  intros H. unfold slice_last. rewrite length_skipn, skipn_skipn.
  f_equal. lia.
Qed.

(** Trimming after every push keeps what trimming once at the end keeps. *)
Lemma slice_last_snoc {A} n (l : list A) x :
  slice_last n (slice_last n l ++ [x]) = slice_last n (l ++ [x]).
Proof.
  destruct n as [|n].
  - unfold slice_last. rewrite !Nat.sub_0_r, !skipn_all. reflexivity.
  - rewrite !slice_last_app by (simpl; lia).
    rewrite slice_last_slice_last by lia. reflexivity.
Qed.

(** The splice of [addToHistory] keeps the last [max_history] elements. *)
Lemma splice_slice_last {A} n (l : list A) :
  (if n <? length l then splice_front (length l - n) l else l)
  = slice_last n l.
Proof.
  destruct (Nat.ltb_spec n (length l)).
  - reflexivity.
  - symmetry. apply slice_last_all. assumption.
Qed.

(** One call of [addToHistory] on a sound store. *)
Lemma addToHistory_stored max_history w ms r c :
  stored w ms ->
  let m := mkMessage r c (toISOString (clock w (reads w))) in
  let ms' := slice_last max_history (ms ++ [m]) in
  let w' := set_file (Some (join LF (log_lines ms')))
              (set_reads (S (reads w)) w) in
  addToHistory max_history r c w = (Ok tt, w') /\ stored w' ms'.
Proof.
  intros Hst m ms' w'. split.
  - unfold addToHistory.
    erewrite bind_ok by (apply loadHistory_stored; eassumption).
    unfold bind at 1. unfold newDate.
    change [message_value (mkMessage r c (toISOString (clock w (reads w))))]
      with (map message_value [m]).
    rewrite <- map_app, splice_slice_last, slice_last_map.
    rewrite saveHistory_stored; [reflexivity|]. apply Hst.
  - split; [apply Hst|]. right. reflexivity.
Qed.

End Store.

(** ** The history store *)

Import Store.

Lemma appendAll_stored max_history calls :
  forall w done,
    stored w (slice_last max_history done) ->
    exists w',
      appendAll max_history calls w = (Ok tt, w')
      /\ stored w'
           (slice_last max_history
              (done ++ stamped (clock w) (reads w) calls)).
Proof.
  induction calls as [|[r c] calls IH]; intros w done Hst.
  - exists w. cbn [stamped]. rewrite app_nil_r. auto.
  - destruct (addToHistory_stored max_history r c Hst) as [Hrun Hst'].
    rewrite slice_last_snoc in Hrun, Hst'.
    destruct (IH _ _ Hst') as (w' & Hrun' & Hst'').
    exists w'. split.
    + cbn [appendAll]. erewrite bind_ok by exact Hrun. exact Hrun'.
    + cbn [stamped]. cbn [clock reads set_file set_reads] in Hst''.
      rewrite <- app_assoc in Hst''. exact Hst''.
Qed.

Lemma stamped_length clk n calls : length (stamped clk n calls) = length calls.
Proof.
  revert n. induction calls as [|[r c] calls IH]; intros n; simpl; auto.
Qed.

(** C1.  Whatever the bound [max_history] (the program runs with 100) and
    whatever calls of [addToHistory] are made on a store with no log yet,
    the calls succeed and the log then holds the last [max_history] of the
    records appended, in the order they were appended: their number is
    the minimum of the number of calls and of the bound.  As this holds
    of every sequence of calls, it holds after each call of a sequence.
    With the bound 3, the four calls A, B, C, D leave exactly B, C, D. *)
Theorem bounded_history max_history calls w :
  file w = None ->
  fs_fail w = [] ->
  let appended := stamped (clock w) (reads w) calls in
  let kept := slice_last max_history appended in
  exists w',
    appendAll max_history calls w = (Ok tt, w')
    /\ loadHistory w' = (Ok (map message_value kept), w')
    /\ length kept = Nat.min (length calls) max_history
    /\ (exists dropped, appended = dropped ++ kept)
    /\ (forall a b c d,
          max_history = 3 -> calls = [a; b; c; d] ->
          kept = stamped (clock w) (S (reads w)) [b; c; d]).
Proof.
  intros Hfile Hfail appended kept.
  destruct (@appendAll_stored max_history calls w []) as (w' & Hrun & Hst).
  { split; auto. }
  exists w'. split; [exact Hrun|]. split.
  - apply loadHistory_stored. exact Hst.
  - split; [|split].
    + unfold kept, appended. rewrite slice_last_length, stamped_length.
      reflexivity.
    + exists (firstn (length appended - max_history) appended).
      unfold kept, slice_last. symmetry. apply firstn_skipn.
    + intros [ra ca] [rb cb] [rc cc] [rd cd] -> ->. reflexivity.
Qed.

Lemma bounded_history_witness :
  file fresh_world = None /\ fs_fail fresh_world = []
  /\ exists w',
       appendAll 3 sample_calls fresh_world = (Ok tt, w')
       /\ loadHistory w'
          = (Ok (map message_value
                   (slice_last 3 (stamped sample_clock 0 sample_calls))), w').
Proof.
  split; [reflexivity|]. split; [reflexivity|].
  destruct (@bounded_history 3 sample_calls fresh_world eq_refl eq_refl)
    as (w' & Hrun & Hload & _).
  exists w'. split; assumption.
Defined.

(** C3.  Whatever list of records is saved, loading the store afterwards
    gives the same list: the same records, each with its role, content and
    timestamp, in the same order, none dropped and none merged. *)
Theorem save_load_round_trip (ms : list Message) w :
  fs_fail w = [] ->
  exists w',
    saveHistory (map message_value ms) w = (Ok tt, w')
    /\ loadHistory w' = (Ok (map message_value ms), w').
Proof.
  intros Hfail. eexists. split.
  - apply saveHistory_stored. assumption.
  - apply loadHistory_stored. split; [exact Hfail|]. right. reflexivity.
Qed.

Lemma save_load_round_trip_witness :
  fs_fail fresh_world = []
  /\ exists w',
       saveHistory (map message_value (stamped sample_clock 0 sample_calls))
         fresh_world = (Ok tt, w')
       /\ loadHistory w'
          = (Ok (map message_value (stamped sample_clock 0 sample_calls)), w').
Proof.
  split; [reflexivity|].
  apply (@save_load_round_trip (stamped sample_clock 0 sample_calls)
           fresh_world eq_refl).
Defined.

(** C8.  When there is no log file, [loadHistory] returns the empty list:
    it does not fail and it leaves everything as it was, so no file is
    created. *)
Theorem load_without_file w :
  file w = None -> loadHistory w = (Ok [], w).
Proof.
  intros H. unfold loadHistory, bind, existsSync. rewrite H. reflexivity.
Qed.

Lemma load_without_file_witness :
  file fresh_world = None /\ loadHistory fresh_world = (Ok [], fresh_world).
Proof.
  split; [reflexivity|]. apply (@load_without_file fresh_world eq_refl).
Defined.

(** ** The request made to the model *)

Lemma mapM_parse_pure ls w :
  exists r, mapM JSON_parse ls w = (r, w)
            /\ forall w2, mapM JSON_parse ls w2 = (r, w2).
Proof.
  induction ls as [|l ls (r & Hr & Hall)].
  - exists (Ok []). auto.
  - cbn [mapM]. unfold bind at 1 3. unfold JSON_parse at 1 3.
    destruct (parse l) as [v|].
    + cbn [ret]. unfold bind. destruct r as [vs|e].
      * exists (Ok (v :: vs)). split; [|intros w2]; rewrite Hall; reflexivity.
      * exists (Throw e). split; [|intros w2]; rewrite Hall; reflexivity.
    + exists (Throw SyntaxError). auto.
Qed.

(** [loadHistory] can only consume an outcome of the file system; what it
    returns depends on the file and on these outcomes alone. *)
Lemma loadHistory_frame w :
  exists r l,
    loadHistory w = (r, set_fs_fail l w)
    /\ forall n tr,
         loadHistory (set_trace tr (set_reads n w))
         = (r, set_fs_fail l (set_trace tr (set_reads n w))).
Proof.
  unfold loadHistory, bind, existsSync, readFileSync, bind, next_fs_fail.
  destruct w as [f fl clk rd a tr0]. cbn [file fs_fail set_trace set_reads].
  destruct f as [text|]; cbn [negb].
  - destruct fl as [|[|] fl]; cbn [fs_fail file set_fs_fail throw].
    + destruct (mapM_parse_pure (filter truthy (split LF (trim text)))
                  (mkWorld (Some text) [] clk rd a tr0)) as (r & Hr & Hall).
      exists r, []. split; [exact Hr|]. intros n tr. apply Hall.
    + exists (Throw FsError), fl. auto.
    + destruct (mapM_parse_pure (filter truthy (split LF (trim text)))
                  (mkWorld (Some text) fl clk rd a tr0)) as (r & Hr & Hall).
      exists r, fl. split; [exact Hr|]. intros n tr. apply Hall.
  - exists (Ok []), fl. auto.
Qed.

Lemma mapM_to_param_records ms w :
  mapM to_param (map message_value ms) w = (Ok (map reduce ms), w).
Proof.
  induction ms as [|m ms IH]; [reflexivity|].
  destruct m as [r c t]. cbn [map mapM].
  change (to_param (message_value (mkMessage r c t)) w)
    with (Ok (reduce (mkMessage r c t)), w) in |- *.
  unfold bind at 1.
  change (to_param (message_value (mkMessage r c t)) w)
    with (Ok (reduce (mkMessage r c t)), w).
  cbv iota. unfold bind. rewrite IH. reflexivity.
Qed.

Lemma getResponse_records ms userMessage w w1 :
  loadHistory w = (Ok (map message_value ms), w1) ->
  getResponse userMessage w
  = (match api w1 (request_for ms userMessage) with
     | Ok response => Ok (first_text (r_content response))
     | Throw e => Throw e
     end,
     set_trace (trace w1 ++ [MessagesCreate (request_for ms userMessage)]) w1).
Proof.
  intros Hload. unfold getResponse.
  erewrite bind_ok by exact Hload.
  rewrite slice_last_map.
  erewrite bind_ok by apply mapM_to_param_records.
  fold (current userMessage). fold (request_for ms userMessage).
  unfold bind, messages_create, bind, emit.
  change (api (set_trace ?t w1)) with (api w1).
  destruct (api w1 (request_for ms userMessage)); reflexivity.
Qed.

(** C2.  When the log holds the records [ms], the request [getResponse]
    passes to the model is made of the last min(H, 20) of them, in their
    order, each reduced to its role and content, followed by one entry, of
    role user, for the new message.  The new message is that last entry
    and nothing else: what precedes it is drawn from the records of the
    log alone. *)
Theorem request_context ms userMessage w :
  stored w ms ->
  let context := map reduce (slice_last 20 ms) in
  exists req,
    requests (trace (snd (getResponse userMessage w)))
    = requests (trace w) ++ [req]
    /\ messages req = context ++ [current userMessage]
    /\ length context = Nat.min (length ms) 20
    /\ (exists older, ms = older ++ slice_last 20 ms).
Proof.
  intros Hst context. exists (request_for ms userMessage).
  rewrite (@getResponse_records ms userMessage w w (loadHistory_stored Hst)).
  cbn [snd trace set_trace].
  split; [|split; [|split]].
  - unfold requests. rewrite flat_map_app. reflexivity.
  - reflexivity.
  - unfold context. rewrite length_map. apply slice_last_length.
  - exists (firstn (length ms - 20) ms). symmetry. apply firstn_skipn.
Qed.

Lemma request_context_witness :
  let ms := sample_log 22 in
  stored (world_with ms) ms
  /\ length ms = 22
  /\ exists req,
       requests (trace (snd (getResponse (lit "hi") (world_with ms)))) = [req]
       /\ messages req
          = map reduce (map sample_record (seq 2 20)) ++ [current (lit "hi")]
       /\ length (messages req) = 21.
Proof.
  cbv zeta.
  assert (Hst : stored (world_with (sample_log 22)) (sample_log 22)).
  { split; [reflexivity|]. right. reflexivity. }
  split; [exact Hst|]. split; [reflexivity|].
  destruct (@request_context (sample_log 22) (lit "hi")
              (world_with (sample_log 22)) Hst)
    as (req & Hreq & Hmsg & _).
  exists req. split; [exact Hreq|]. split; [exact Hmsg|].
  rewrite Hmsg. reflexivity.
Defined.

(** ** The text taken from the reply of the model *)

Lemma find_no_text blocks :
  forallb (fun b => negb (is_text b)) blocks = true ->
  find is_text blocks = None.
Proof.
  induction blocks as [|b blocks IH]; cbn [forallb find]; auto.
  rewrite andb_true_iff, negb_true_iff. intros [Hb Hbs]. rewrite Hb. auto.
Qed.

Lemma find_first_text pre b post :
  forallb (fun b => negb (is_text b)) pre = true ->
  is_text b = true ->
  find is_text (pre ++ b :: post) = Some b.
Proof.
  intros Hpre Hb. induction pre as [|p pre IH]; cbn [app find].
  - rewrite Hb. reflexivity.
  - cbn [forallb] in Hpre. rewrite andb_true_iff, negb_true_iff in Hpre.
    destruct Hpre as [Hp Hpre]. rewrite Hp. auto.
Qed.

(** C5.  When the reply of the model holds no block of type text,
    [getResponse] returns the fixed text "Sorry, I could not generate a
    response."; when it holds one, [getResponse] returns the text of the
    first such block. *)
Theorem first_text_or_fallback ms userMessage w w1 response :
  loadHistory w = (Ok (map message_value ms), w1) ->
  api w (request_for ms userMessage) = Ok response ->
  exists out,
    fst (getResponse userMessage w) = Ok out
    /\ (forallb (fun b => negb (is_text b)) (r_content response) = true ->
        out = lit "Sorry, I could not generate a response.")
    /\ (forall pre b post t,
          r_content response = pre ++ b :: post ->
          forallb (fun b => negb (is_text b)) pre = true ->
          is_text b = true ->
          b_text b = Some t ->
          out = t).
Proof.
  intros Hload Hapi. exists (first_text (r_content response)).
  rewrite (@getResponse_records ms userMessage w w1 Hload).
  destruct (loadHistory_frame w) as (r & l & E & _).
  rewrite E in Hload. inversion Hload; subst r w1.
  change (api (set_fs_fail l w)) with (api w). rewrite Hapi. cbn [fst].
  split; [reflexivity|]. unfold first_text. fold is_text. split.
  - intros Hnone. rewrite find_no_text by assumption. reflexivity.
  - intros pre b post t -> Hpre Hb Ht.
    rewrite find_first_text by assumption. rewrite Ht. reflexivity.
Qed.

Lemma first_text_or_fallback_witness :
  loadHistory fresh_world = (Ok (map message_value []), fresh_world)
  /\ api fresh_world (request_for [] (lit "hi"))
     = Ok (mkResponse [mkBlock (lit "tool_use") None;
                       mkBlock (lit "text") (Some (lit "hello"))])
  /\ fst (getResponse (lit "hi") fresh_world) = Ok (lit "hello").
Proof.
  split; [reflexivity|]. split; [reflexivity|].
  destruct (@first_text_or_fallback [] (lit "hi") fresh_world fresh_world _
              eq_refl eq_refl) as (out & Hout & _ & Hfirst).
  rewrite Hout. f_equal.
  apply (Hfirst [mkBlock (lit "tool_use") None]
           (mkBlock (lit "text") (Some (lit "hello"))) []); reflexivity.
Defined.

(** ** Commands *)

(** C9.  A text message that begins with [/] and is not [/start] is
    ignored: the handler returns and the world is as it was, so no reply
    is sent, no request is made to the model and the log is unchanged. *)
Theorem other_commands_ignored ctx t w :
  message ctx = Some (mkTgMessage (Some t)) ->
  startsWith (lit "/") t = true ->
  t <> lit "/start" ->
  on_message_text ctx w = (Ok tt, w).
Proof.
  intros Hmsg Hcmd Hstart. unfold on_message_text. rewrite Hmsg.
  cbn [text]. apply StringFacts.eqb_neq in Hstart. rewrite Hcmd, Hstart.
  cbn [negb andb].
  destruct (truthy t); [|reflexivity].
  destruct (chat_id ctx) as [chat|]; [|reflexivity].
  destruct (chat =? 0)%Z; reflexivity.
Qed.

Lemma other_commands_ignored_witness :
  message (sample_update (lit "/help")) = Some (mkTgMessage (Some (lit "/help")))
  /\ startsWith (lit "/") (lit "/help") = true
  /\ lit "/help" <> lit "/start"
  /\ on_message_text (sample_update (lit "/help")) fresh_world
     = (Ok tt, fresh_world).
Proof.
  split; [reflexivity|]. split; [reflexivity|].
  assert (H : lit "/help" <> lit "/start") by discriminate.
  split; [exact H|].
  apply (@other_commands_ignored (sample_update (lit "/help")) (lit "/help")
           fresh_world eq_refl eq_refl H).
Defined.

(** ** Lines that are not records *)

Lemma mapM_parse_throws ls l w :
  In l ls -> parse l = None ->
  mapM JSON_parse ls w = (Throw SyntaxError, w).
Proof.
  intros Hin Hbad. induction ls as [|x ls IH]; [contradiction|].
  cbn [mapM]. unfold bind at 1. unfold JSON_parse at 1.
  destruct (parse x) as [v|] eqn:Ex.
  - cbn [ret]. destruct Hin as [E|Hin].
    + rewrite E, Hbad in Ex. discriminate.
    + unfold bind. rewrite IH by assumption. reflexivity.
  - reflexivity.
Qed.

Lemma mapM_parse_all ls w :
  Forall (fun l => parse l <> None) ls ->
  exists vs, mapM JSON_parse ls w = (Ok vs, w) /\ map Some vs = map parse ls.
Proof.
  induction 1 as [|l ls Hl _ (vs & Hrun & Hvs)].
  - exists []. auto.
  - destruct (parse l) as [v|] eqn:El; [|congruence].
    exists (v :: vs). split.
    + cbn [mapM]. unfold bind at 1. unfold JSON_parse at 1. rewrite El.
      cbn [ret]. unfold bind. rewrite Hrun. reflexivity.
    + cbn [map]. rewrite El, Hvs. reflexivity.
Qed.

(** C7, as the specification states it, fails: a log whose only line is
    [42] holds a line that does not parse as a valid record, and
    [loadHistory] does not fail on it: JSON.parse accepts the line and the
    number is returned as if it were a record. *)
Lemma non_record_line_counterexample :
  let w := set_file (Some (lit "42")) fresh_world in
  In (lit "42") (split LF (lit "42"))
  /\ record_line (lit "42") = false
  /\ loadHistory w = (Ok [JNum (lit "42")], w).
Proof.
  cbv zeta. split; [left; reflexivity|]. split; reflexivity.
Qed.

(** C7, amended.  When the log, once trimmed, holds a line that is not
    empty and is not a JSON text, [loadHistory] fails: the SyntaxError of
    JSON.parse reaches the caller (when reading the file has not failed
    before), nothing is recovered and no line is skipped.  Empty lines are
    skipped before parsing, and a line that holds JSON is accepted whether
    or not it is a record. *)
Theorem load_fails_on_bad_json w text l :
  file w = Some text ->
  In l (split LF (trim text)) ->
  l <> [] ->
  parse l = None ->
  exists e w',
    loadHistory w = (Throw e, w')
    /\ (fs_fail w = [] -> e = SyntaxError /\ w' = w).
Proof.
  intros Hfile Hin Hne Hbad.
  assert (Hin' : In l (filter truthy (split LF (trim text)))).
  { apply filter_In. split; [assumption|].
    destruct l; [exfalso; apply Hne; reflexivity|reflexivity]. }
  unfold loadHistory, bind, existsSync. rewrite Hfile. cbn [negb].
  unfold readFileSync, bind, next_fs_fail.
  destruct (fs_fail w) as [|[|] fl] eqn:Hfl.
  - rewrite Hfile. rewrite (mapM_parse_throws _ _ _ Hin' Hbad). eauto.
  - cbn [throw]. do 2 eexists. split; [reflexivity|]. discriminate.
  - cbn [file set_fs_fail]. rewrite Hfile.
    rewrite (mapM_parse_throws _ _ _ Hin' Hbad).
    do 2 eexists. split; [reflexivity|]. discriminate.
Qed.

Lemma load_fails_on_bad_json_witness :
  let text := sample_line (lit "a") ++ LF :: lit "{oops" in
  let w := set_file (Some text) fresh_world in
  file w = Some text
  /\ In (lit "{oops") (split LF (trim text))
  /\ lit "{oops" <> []
  /\ parse (lit "{oops") = None
  /\ loadHistory w = (Throw SyntaxError, w).
Proof.
  cbv zeta. split; [reflexivity|].
  assert (Hin : In (lit "{oops")
                  (split LF (trim (sample_line (lit "a") ++ LF :: lit "{oops"))))
    by (vm_compute; auto).
  assert (Hne : lit "{oops" <> []) by discriminate.
  split; [exact Hin|]. split; [exact Hne|]. split; [reflexivity|].
  destruct (@load_fails_on_bad_json
              (set_file (Some (sample_line (lit "a") ++ LF :: lit "{oops"))
                 fresh_world)
              _ _ eq_refl Hin Hne eq_refl) as (e & w' & Hrun & Hok).
  destruct (Hok eq_refl) as [-> ->]. exact Hrun.
Defined.

(** C10, as stated, fails when blank is read as it usually is, a line
    with nothing but white space on it: in a log of two records with a
    line holding one space between them, every line that is not blank
    parses as a valid record, and [loadHistory] fails with the
    SyntaxError of JSON.parse on the line of one space. *)
Lemma blank_line_counterexample :
  let text := sample_line (lit "a") ++ [LF; 32%N; LF] ++ sample_line (lit "b") in
  let w := set_file (Some text) fresh_world in
  split LF text = [sample_line (lit "a"); [32%N]; sample_line (lit "b")]
  /\ Forall (fun l => blank l = true \/ record_line l = true) (split LF text)
  /\ loadHistory w = (Throw SyntaxError, w).
Proof.
  cbv zeta.
  assert (E : split LF (sample_line (lit "a") ++ [LF; 32%N; LF]
                          ++ sample_line (lit "b"))
              = [sample_line (lit "a"); [32%N]; sample_line (lit "b")])
    by reflexivity.
  split; [exact E|]. split.
  - rewrite E.
    apply Forall_cons; [right; reflexivity|].
    apply Forall_cons; [left; reflexivity|].
    apply Forall_cons; [right; reflexivity|]. apply Forall_nil.
  - reflexivity.
Qed.

(** When every line of the trimmed text is empty or parses as a valid
    record, [loadHistory] returns what the lines that are not empty parse
    to. *)
Lemma load_trimmed_lines w text :
  file w = Some text ->
  fs_fail w = [] ->
  Forall (fun l => l = [] \/ record_line l = true) (split LF (trim text)) ->
  exists vs,
    loadHistory w = (Ok vs, w)
    /\ map Some vs = map parse (filter truthy (split LF (trim text)))
    /\ Forall (fun v => as_message v <> None) vs.
Proof.
  intros Hfile Hfail Hlines.
  assert (H : Forall (fun l => record_line l = true)
                (filter truthy (split LF (trim text)))).
  { apply Forall_forall. intros l Hl. apply filter_In in Hl.
    destruct Hl as [Hin Hne]. rewrite Forall_forall in Hlines.
    destruct (Hlines l Hin) as [->|Hrec]; [discriminate|assumption]. }
  destruct (@mapM_parse_all (filter truthy (split LF (trim text))) w)
    as (vs & Hrun & Hvs).
  { eapply Forall_impl; [|exact H]. intros l Hl. unfold record_line in Hl.
    destruct (parse l); congruence. }
  exists vs. split; [|split].
  - unfold loadHistory, bind, existsSync. rewrite Hfile. cbn [negb].
    rewrite (readFileSync_ok _ Hfail Hfile). exact Hrun.
  - exact Hvs.
  - clear Hrun. revert vs Hvs.
    induction H as [|l ls Hl _ IH]; intros [|v vs] Hvs; try discriminate.
    + constructor.
    + cbn [map] in Hvs. inversion Hvs as [[Hv Hrest]]. constructor; auto.
      unfold record_line in Hl. rewrite <- Hv in Hl.
      destruct (as_message v); congruence.
Qed.

(** C10, amended.  When the log is made of lines that are each empty or
    parse as a valid record, with any white space before and after them,
    [loadHistory] succeeds and returns exactly what the lines that are not
    empty parse to, in the order of the file: every value returned is a
    record, and the empty lines and the white space at either end of the
    file, a last line feed included, are skipped.  The amendment leaves
    out the lines that hold white space only and stand between two
    records: they are parsed and rejected. *)
Theorem load_skips_empty_lines w pre body post :
  file w = Some (pre ++ body ++ post) ->
  blank pre = true ->
  blank post = true ->
  fs_fail w = [] ->
  Forall (fun l => l = [] \/ record_line l = true) (split LF body) ->
  exists vs,
    loadHistory w = (Ok vs, w)
    /\ map Some vs = map parse (filter truthy (split LF body))
    /\ Forall (fun v => as_message v <> None) vs.
Proof.
  intros Hfile Hpre Hpost Hfail Hlines.
  destruct (TrimLines.trimmed_lines body Hlines) as [Q V].
  destruct (@load_trimmed_lines w (pre ++ body ++ post) Hfile Hfail)
    as (vs & Hrun & Hvs & Hrec).
  { rewrite StringFacts.trim_white_around by assumption. exact Q. }
  exists vs. split; [exact Hrun|]. split; [|exact Hrec].
  rewrite StringFacts.trim_white_around in Hvs by assumption.
  etransitivity; [exact Hvs|exact V].
Qed.

Lemma load_skips_empty_lines_witness :
  let body := sample_line (lit "a") ++ [LF; LF] ++ sample_line (lit "b") in
  let w := set_file (Some ([LF; 32%N] ++ body ++ [32%N; LF])) fresh_world in
  file w = Some ([LF; 32%N] ++ body ++ [32%N; LF])
  /\ blank [LF; 32%N] = true
  /\ blank [32%N; LF] = true
  /\ fs_fail w = []
  /\ Forall (fun l => l = [] \/ record_line l = true) (split LF body)
  /\ exists vs, loadHistory w = (Ok vs, w) /\ length vs = 2.
Proof.
  cbv zeta. split; [reflexivity|]. split; [reflexivity|].
  split; [reflexivity|]. split; [reflexivity|].
  assert (H : Forall (fun l => l = [] \/ record_line l = true)
                (split LF (sample_line (lit "a") ++ [LF; LF]
                             ++ sample_line (lit "b")))).
  { assert (E : split LF (sample_line (lit "a") ++ [LF; LF]
                            ++ sample_line (lit "b"))
                = [sample_line (lit "a"); []; sample_line (lit "b")])
      by reflexivity.
    rewrite E.
    apply Forall_cons; [right; reflexivity|].
    apply Forall_cons; [left; reflexivity|].
    apply Forall_cons; [right; reflexivity|]. apply Forall_nil. }
  split; [exact H|].
  destruct (@load_skips_empty_lines
              (set_file (Some ([LF; 32%N]
                               ++ (sample_line (lit "a") ++ [LF; LF]
                                     ++ sample_line (lit "b"))
                               ++ [32%N; LF])) fresh_world)
              [LF; 32%N] _ [32%N; LF] eq_refl eq_refl eq_refl eq_refl H)
    as (vs & Hrun & Hvs & _).
  exists vs. split; [exact Hrun|].
  apply (f_equal (@length _)) in Hvs. rewrite length_map in Hvs.
  rewrite Hvs. reflexivity.
Defined.

(** ** The handler *)

Lemma on_message_text_answered ctx t chat w :
  answered ctx t chat ->
  on_message_text ctx w
  = try_catch (respond_and_record t)
      (fun err => emit (ConsoleError err) ;;; emit (Reply APOLOGY))
      (received t chat w).
Proof.
  intros (Hmsg & Hchat & Ht & Hc & Hcmd).
  unfold on_message_text. rewrite Hmsg, Hchat. cbn [text]. rewrite Ht, Hcmd.
  cbn [negb]. apply Z.eqb_neq in Hc. rewrite Hc.
  unfold bind, newDate, emit, received.
  cbn [trace set_trace set_reads clock reads file fs_fail api].
  rewrite <- app_assoc. reflexivity.
Qed.

Lemma mapM_to_param_pure l w :
  exists r, mapM to_param l w = (r, w)
            /\ forall w2, mapM to_param l w2 = (r, w2).
Proof.
  induction l as [|v l (r & Hr & Hall)].
  - exists (Ok []). auto.
  - assert (Hv : exists rv, forall w2, to_param v w2 = (rv, w2)).
    { destruct v; try (eexists; intros; reflexivity). }
    destruct Hv as [rv Hv]. cbn [mapM]. unfold bind at 1 3.
    rewrite !Hv. destruct rv as [p|e].
    + unfold bind. destruct r as [ps|e].
      * exists (Ok (p :: ps)). split; [|intros w2]; rewrite ?Hv, Hall;
          reflexivity.
      * exists (Throw e). split; [|intros w2]; rewrite ?Hv, Hall; reflexivity.
    + exists (Throw e). split; [|intros w2]; rewrite ?Hv; reflexivity.
Qed.


Lemma replies_app a b : replies (a ++ b) = replies a ++ replies b.
Proof. apply flat_map_app. Qed.




(** C6, as stated, fails: [addToHistory] takes a role and a content and
    no timestamp, and stamps the record with the clock as it reads it
    while recording.  In a process whose clock reads T0 when the message
    arrives and T1 when the reply of the model is complete, the user
    record is stamped T2 and the assistant record T3. *)
Lemma recording_time_counterexample :
  let w' := snd (on_message_text (sample_update (lit "hi")) fresh_world) in
  hd_error (trace w')
  = Some (ConsoleLog (LF :: lit "[L0] Received: hi"))
  /\ In (ConsoleLog (lit "[L1] Sent: hello")) (trace w')
  /\ loadHistory w'
     = (Ok (map message_value
              [mkMessage user (lit "hi") (lit "T2");
               mkMessage assistant (lit "hello") (lit "T3")]), w')
  /\ toISOString (sample_clock 0) = lit "T0"
  /\ toISOString (sample_clock 1) = lit "T1"
  /\ lit "T2" <> lit "T0"
  /\ lit "T3" <> lit "T1".
Proof.
  cbv zeta. split; [reflexivity|]. split; [vm_compute; auto 10|].
  split; [reflexivity|]. split; [reflexivity|]. split; [reflexivity|].
  split; discriminate.
Qed.

Lemma stored_frame w ms tr n :
  stored w ms -> stored (set_trace tr (set_reads n w)) ms.
Proof. intros H. exact H. Qed.

(** C6, amended.  On a cycle that succeeds, the handler sends the reply
    and then calls [addToHistory] twice, for the user message and then for
    the reply of the assistant.  Each call takes a role and a content and
    writes one record, whose timestamp is what the clock reads during the
    call: the third and the fourth reading of the cycle, after the one
    taken when the message is received and the one taken when the reply is
    complete. *)
Theorem successful_cycle_records ctx t chat w ms response :
  answered ctx t chat ->
  stored w ms ->
  api w (request_for ms t) = Ok response ->
  let reply := first_text (r_content response) in
  let u := mkMessage user t (toISOString (clock w (reads w + 2))) in
  let a := mkMessage assistant reply (toISOString (clock w (reads w + 3))) in
  exists w0 w1 w',
    on_message_text ctx w = (Ok tt, w')
    /\ replies (trace w0)
       = replies (trace w) ++ [ASSISTANT_NAME ++ lit ": " ++ reply]
    /\ file w0 = file w
    /\ clock w0 = clock w /\ reads w0 = reads w + 2
    /\ addToHistory MAX_HISTORY user t w0 = (Ok tt, w1)
    /\ loadHistory w1
       = (Ok (map message_value (slice_last MAX_HISTORY (ms ++ [u]))), w1)
    /\ addToHistory MAX_HISTORY assistant reply w1 = (Ok tt, w')
    /\ loadHistory w'
       = (Ok (map message_value (slice_last MAX_HISTORY (ms ++ [u; a]))), w')
    /\ trace w' = trace w0.
Proof.
  intros Hans Hst Hapi reply u a.
  rewrite (@on_message_text_answered ctx t chat w Hans).
  unfold try_catch, respond_and_record.
  assert (Hload : loadHistory (received t chat w)
                  = (Ok (map message_value ms), received t chat w)).
  { apply loadHistory_stored. exact Hst. }
  pose proof (@getResponse_records ms t (received t chat w) _ Hload) as Hget.
  change (api (received t chat w)) with (api w) in Hget.
  rewrite Hapi in Hget. fold reply in Hget.
  erewrite bind_ok by exact Hget.
  unfold bind at 1. unfold newDate. unfold bind at 1. unfold emit at 1.
  unfold bind at 1. unfold emit at 1.
  match goal with
  | |- context [bind (addToHistory _ _ _) _ ?x] => set (w0 := x)
  end.
  assert (Hst0 : stored w0 ms) by exact Hst.
  destruct (@addToHistory_stored MAX_HISTORY w0 ms user t Hst0) as [Hrun1 Hst1].
  cbv zeta in Hrun1, Hst1.
  match type of Hrun1 with _ = (_, ?x) => set (w1 := x) in * end.
  destruct (@addToHistory_stored MAX_HISTORY w1 _ assistant reply Hst1)
    as [Hrun2 Hst2].
  cbv zeta in Hrun2, Hst2.
  match type of Hrun2 with _ = (_, ?x) => set (w' := x) in * end.
  assert (E0 : reads w0 = reads w + 2).
  { unfold w0, received. cbn [reads set_trace set_reads]. lia. }
  assert (E1 : reads w1 = reads w + 3).
  { unfold w1. cbn [reads set_file set_reads]. lia. }
  assert (Eu : mkMessage user t (toISOString (clock w0 (reads w0))) = u).
  { rewrite E0. reflexivity. }
  assert (Ea : mkMessage assistant reply (toISOString (clock w1 (reads w1))) = a).
  { rewrite E1. reflexivity. }
  rewrite Eu in *. rewrite Ea in *.
  rewrite slice_last_snoc, <- app_assoc in Hst2. cbn [app] in Hst2.
  exists w0, w1, w'. split.
  - erewrite bind_ok by exact Hrun1. rewrite Hrun2. reflexivity.
  - split.
    + unfold w0, received. cbn [trace set_trace set_reads].
      rewrite !replies_app. cbn [replies flat_map app].
      rewrite !app_nil_r. reflexivity.
    + split; [reflexivity|]. split; [reflexivity|]. split; [exact E0|].
      split; [exact Hrun1|]. split; [apply loadHistory_stored; exact Hst1|].
      split; [exact Hrun2|]. split; [apply loadHistory_stored; exact Hst2|].
      reflexivity.
Qed.

Lemma successful_cycle_records_witness :
  answered (sample_update (lit "hi")) (lit "hi") 7
  /\ stored fresh_world []
  /\ api fresh_world (request_for [] (lit "hi"))
     = Ok (mkResponse [mkBlock (lit "tool_use") None;
                       mkBlock (lit "text") (Some (lit "hello"))])
  /\ exists w',
       on_message_text (sample_update (lit "hi")) fresh_world = (Ok tt, w')
       /\ loadHistory w'
          = (Ok (map message_value
                   [mkMessage user (lit "hi") (lit "T2");
                    mkMessage assistant (lit "hello") (lit "T3")]), w').
Proof.
  assert (Hans : answered (sample_update (lit "hi")) (lit "hi") 7).
  { repeat split; try reflexivity. discriminate. }
  assert (Hst : stored fresh_world []).
  { split; [reflexivity|]. left. split; reflexivity. }
  split; [exact Hans|]. split; [exact Hst|]. split; [reflexivity|].
  destruct (@successful_cycle_records (sample_update (lit "hi")) (lit "hi") 7
              fresh_world [] _ Hans Hst eq_refl)
    as (w0 & w1 & w' & Hrun & _ & _ & _ & _ & _ & _ & _ & Hload & _).
  exists w'. split; [exact Hrun|]. exact Hload.
Defined.

(** * Further properties of the program *)

(** ** What the store operations leave alone *)

Lemma loadHistory_keeps w :
  let w' := snd (loadHistory w) in
  file w' = file w /\ trace w' = trace w /\ reads w' = reads w
  /\ clock w' = clock w /\ api w' = api w.
Proof.
  destruct (loadHistory_frame w) as (r & l & E & _). rewrite E.
  cbn. tauto.
Qed.

Lemma saveHistory_keeps h w :
  let w' := snd (saveHistory h w) in
  trace w' = trace w /\ reads w' = reads w
  /\ clock w' = clock w /\ api w' = api w.
Proof.
  unfold saveHistory, writeFileSync, bind, next_fs_fail.
  destruct (fs_fail w) as [|[|] fl]; cbn; tauto.
Qed.

Lemma addToHistory_keeps max_history r c w :
  let w' := snd (addToHistory max_history r c w) in
  trace w' = trace w /\ clock w' = clock w /\ api w' = api w.
Proof.
  unfold addToHistory.
  destruct (loadHistory_frame w) as ([h|e] & l & E & _).
  - erewrite bind_ok by exact E. unfold bind, newDate.
    cbv zeta.
    match goal with
    | |- context [saveHistory ?h ?w0] =>
        destruct (saveHistory_keeps h w0) as (Ht & _ & Hc & Ha)
    end.
    rewrite Ht, Hc, Ha. cbn. tauto.
  - erewrite bind_throw by exact E. cbn. tauto.
Qed.

(** ** What one message does *)

Lemma requests_app a b : requests (a ++ b) = requests a ++ requests b.
Proof. apply flat_map_app. Qed.

(** [getResponse] makes at most one request, and none when it fails
    before the call of the model. *)
Lemma getResponse_effects t w :
  exists r l evs,
    getResponse t w = (r, set_trace (trace w ++ evs) (set_fs_fail l w))
    /\ ((evs = [] /\ exists e, r = Throw e)
        \/ exists req,
             evs = [MessagesCreate req]
             /\ r = match api w req with
                    | Ok response => Ok (first_text (r_content response))
                    | Throw e => Throw e
                    end).
Proof.
  destruct (loadHistory_frame w) as (r0 & l & Hload & _).
  assert (Hid : forall w0 : World, set_trace (trace w0 ++ []) w0 = w0).
  { intros [f fl clk rd a tr]. unfold set_trace. cbn. rewrite app_nil_r.
    reflexivity. }
  destruct r0 as [h|e].
  - destruct (mapM_to_param_pure (slice_last 20 h) (set_fs_fail l w))
      as (rp & Hp & _).
    destruct rp as [ps|e].
    + set (req := mkRequest (lit "claude-sonnet-4-5") 4096
                    (ps ++ [mkParam (Some (JStr (lit "user"))) (Some (JStr t))])
                    SYSTEM).
      exists (match api w req with
              | Ok response => Ok (first_text (r_content response))
              | Throw e => Throw e
              end), l, [MessagesCreate req].
      split; [|right; exists req; split; reflexivity].
      unfold getResponse.
      erewrite bind_ok by exact Hload. erewrite bind_ok by apply Hp.
      fold req. unfold bind, messages_create, bind, emit.
      change (api (set_trace ?x (set_fs_fail l w))) with (api w).
      destruct (api w req); reflexivity.
    + exists (Throw e), l, []. split; [|left; split; [reflexivity|eauto]].
      unfold getResponse.
      erewrite bind_ok by exact Hload. erewrite bind_throw by apply Hp.
      change (trace w) with (trace (set_fs_fail l w)).
      rewrite Hid. reflexivity.
  - exists (Throw e), l, []. split; [|left; split; [reflexivity|eauto]].
    unfold getResponse.
    erewrite bind_throw by exact Hload.
    change (trace w) with (trace (set_fs_fail l w)).
    rewrite Hid. reflexivity.
Qed.

(** The sequel of a reply of the model: the two log lines aside, one
    reply, then the two calls of [addToHistory], which add no event. *)
Lemma record_effects t response w0 :
  exists r w',
    (now <- newDate ;;
     emit (ConsoleLog (lit "[" ++ toLocaleTimeString now ++ lit "] Sent: "
                       ++ preview response)) ;;;
     emit (Reply (ASSISTANT_NAME ++ lit ": " ++ response)) ;;;
     addToHistory MAX_HISTORY user t ;;;
     addToHistory MAX_HISTORY assistant response) w0 = (r, w')
    /\ requests (trace w') = requests (trace w0)
    /\ replies (trace w')
       = replies (trace w0) ++ [ASSISTANT_NAME ++ lit ": " ++ response]
    /\ clock w' = clock w0 /\ api w' = api w0.
Proof.
  unfold bind at 1. unfold newDate. unfold bind at 1. unfold emit at 1.
  unfold bind at 1. unfold emit at 1.
  match goal with
  | |- context [bind (addToHistory _ _ _) _ ?x] => set (w1 := x)
  end.
  assert (T1 : requests (trace w1) = requests (trace w0)
               /\ replies (trace w1)
                  = replies (trace w0) ++ [ASSISTANT_NAME ++ lit ": " ++ response]
               /\ clock w1 = clock w0 /\ api w1 = api w0).
  { unfold w1. cbn [trace set_trace set_reads clock api].
    rewrite !requests_app, !replies_app. cbn [requests replies flat_map app].
    rewrite !app_nil_r. auto. }
  clearbody w1. destruct T1 as (Q1 & R1 & C1 & A1).
  pose proof (addToHistory_keeps MAX_HISTORY user t w1) as K1.
  cbv zeta in K1. unfold bind.
  destruct (addToHistory MAX_HISTORY user t w1) as [[[]|e] w2].
  - pose proof (addToHistory_keeps MAX_HISTORY assistant response w2) as K2.
    cbv zeta in K2.
    destruct (addToHistory MAX_HISTORY assistant response w2) as [r w3].
    cbn [snd] in *. destruct K1 as (T1 & C1' & A1'), K2 as (T2 & C2 & A2).
    exists r, w3. rewrite T2, T1, C2, C1', A2, A1'. auto.
  - cbn [snd] in *. destruct K1 as (T1 & C1' & A1').
    exists (Throw e), w2. rewrite T1, C1', A1'. auto.
Qed.

(** What the handler does for a message it answers, in any state of the
    process. *)
Lemma answered_effects ctx t chat w :
  answered ctx t chat ->
  exists w' reqs rs,
    on_message_text ctx w = (Ok tt, w')
    /\ requests (trace w') = requests (trace w) ++ reqs
    /\ length reqs <= 1
    /\ replies (trace w') = replies (trace w) ++ rs
    /\ (rs = [APOLOGY]
        \/ exists reply,
             reqs <> []
             /\ (rs = [ASSISTANT_NAME ++ lit ": " ++ reply]
                 \/ rs = [ASSISTANT_NAME ++ lit ": " ++ reply; APOLOGY]))
    /\ clock w' = clock w /\ api w' = api w.
Proof.
  intros Hans.
  rewrite (@on_message_text_answered ctx t chat w Hans).
  unfold try_catch, respond_and_record.
  destruct (getResponse_effects t (received t chat w))
    as (r & l & evs & Hrun & Hevs).
  set (w1 := set_trace (trace (received t chat w) ++ evs)
               (set_fs_fail l (received t chat w))) in *.
  assert (T1 : requests (trace w1) = requests (trace w) ++ requests evs
               /\ replies (trace w1) = replies (trace w) ++ replies evs
               /\ clock w1 = clock w /\ api w1 = api w).
  { unfold w1, received. cbn [trace set_trace set_reads set_fs_fail clock api].
    rewrite !requests_app, !replies_app. cbn [requests replies flat_map app].
    rewrite !app_nil_r. auto. }
  clearbody w1. destruct T1 as (Q1 & R1 & C1 & A1).
  assert (Hq : length (requests evs) <= 1 /\ replies evs = []).
  { destruct Hevs as [[-> _]|(req & -> & _)]; cbn; auto. }
  destruct Hq as [Hq Hr]. rewrite Hr, app_nil_r in R1.
  destruct r as [response|e].
  - erewrite bind_ok by exact Hrun.
    destruct Hevs as [[_ [e He]]|(req & Ereq & _)]; [discriminate|].
    destruct (record_effects t response w1) as (r & w2 & E & Q2 & R2 & C2 & A2).
    rewrite E. destruct r as [[]|e].
    + exists w2, (requests evs), [ASSISTANT_NAME ++ lit ": " ++ response].
      rewrite Q2, R2, C2, A2, Q1, R1, C1, A1.
      split; [reflexivity|]. split; [reflexivity|]. split; [exact Hq|].
      split; [reflexivity|]. split; [|split; reflexivity].
      right. exists response. split; [|left; reflexivity].
      rewrite Ereq. discriminate.
    + unfold bind, emit. cbn [trace set_trace clock api].
      exists (set_trace ((trace w2 ++ [ConsoleError e]) ++ [Reply APOLOGY])
                (set_trace (trace w2 ++ [ConsoleError e]) w2)),
        (requests evs), [ASSISTANT_NAME ++ lit ": " ++ response; APOLOGY].
      cbn [trace set_trace clock api].
      rewrite !requests_app, !replies_app. cbn [requests replies flat_map app].
      rewrite !app_nil_r, Q2, R2, C2, A2, Q1, R1, C1, A1.
      split; [reflexivity|]. split; [reflexivity|]. split; [exact Hq|].
      split; [rewrite <- app_assoc; reflexivity|]. split; [|split; reflexivity].
      right. exists response. split; [|right; reflexivity].
      rewrite Ereq. discriminate.
  - erewrite bind_throw by exact Hrun.
    unfold bind, emit. cbn [trace set_trace clock api].
    exists (set_trace ((trace w1 ++ [ConsoleError e]) ++ [Reply APOLOGY])
              (set_trace (trace w1 ++ [ConsoleError e]) w1)),
      (requests evs), [APOLOGY].
    cbn [trace set_trace clock api].
    rewrite !requests_app, !replies_app. cbn [requests replies flat_map app].
    rewrite !app_nil_r, Q1, R1, C1, A1.
    split; [reflexivity|]. split; [reflexivity|]. split; [exact Hq|].
    split; [reflexivity|]. split; [left; reflexivity|split; reflexivity].
Qed.

Lemma handler_cases ctx w :
  on_message_text ctx w = (Ok tt, w) \/ exists t chat, answered ctx t chat.
Proof.
  unfold on_message_text, answered.
  destruct ctx as [[[[t|]]|] [chat|]]; cbn [message chat_id text]; auto;
    try (destruct (negb (truthy t)); auto; fail).
  destruct (truthy t) eqn:Et; cbn [negb]; auto.
  destruct (Z.eqb_spec chat 0); auto.
  destruct (startsWith (lit "/") t && negb (eqb t (lit "/start"))) eqn:Ec; auto.
  right. exists t, chat. auto.
Qed.

(** X1.  Whatever the update and the state of the process, the handler
    returns without an error: no failure of the model service, of the log
    or of the file system escapes it (the calls of the Telegram API are
    taken not to fail).  Handling one update makes at most one request to
    the model and sends at most two replies, and the requests and replies
    made before it stay as they were. *)
Theorem handler_returns ctx w :
  exists w' reqs rs,
    on_message_text ctx w = (Ok tt, w')
    /\ requests (trace w') = requests (trace w) ++ reqs
    /\ replies (trace w') = replies (trace w) ++ rs
    /\ length reqs <= 1
    /\ length rs <= 2.
Proof.
  destruct (handler_cases ctx w) as [E|(t & chat & Hans)].
  - exists w, [], []. rewrite !app_nil_r. cbn [length].
    split; [exact E|]. split; [reflexivity|]. split; [reflexivity|]. lia.
  - destruct (answered_effects w Hans)
      as (w' & reqs & rs & E & Q & Hq & R & Hrs & _).
    exists w', reqs, rs. repeat (split; [assumption|]).
    destruct Hrs as [->|(reply & _ & [->| ->])]; cbn; lia.
Qed.

(** X2.  The handler leaves the process exactly as it was (no log line,
    no typing action, no request, no reply, no reading of the clock, no
    access to the log) if and only if the update is not one it answers:
    it has no message, or no text or an empty one, or no chat or the chat
    id 0, or its text is a command other than [/start]. *)
Theorem handler_acts_on_answered ctx w :
  on_message_text ctx w = (Ok tt, w) <-> ~ exists t chat, answered ctx t chat.
Proof.
  split.
  - intros E (t & chat & Hans).
    destruct (answered_effects w Hans)
      as (w' & reqs & rs & E' & _ & _ & R & Hrs & _).
    rewrite E in E'. inversion E'; subst w'.
    apply (f_equal (@length _)) in R. rewrite length_app in R.
    destruct Hrs as [->|(reply & _ & [->| ->])]; cbn in R; lia.
  - intros Hno. destruct (handler_cases ctx w) as [E|H]; [exact E|].
    contradiction.
Qed.


(** ** Calls of Telegram that are rejected *)

(** When every call of Telegram succeeds, the handler is
    [on_message_text]. *)
Lemma on_message_text_with_delivered ctx :
  on_message_text_with delivered ctx = on_message_text ctx.
Proof. reflexivity. Qed.

Lemma handler_with_cases d ctx w :
  on_message_text_with d ctx w = (Ok tt, w)
  \/ exists t chat, answered ctx t chat.
Proof.
  unfold on_message_text_with, answered.
  destruct ctx as [[[[t|]]|] [chat|]]; cbn [message chat_id text]; auto;
    try (destruct (negb (truthy t)); auto; fail).
  destruct (truthy t) eqn:Et; cbn [negb]; auto.
  destruct (Z.eqb_spec chat 0); auto.
  destruct (startsWith (lit "/") t && negb (eqb t (lit "/start"))) eqn:Ec; auto.
  right. exists t, chat. auto.
Qed.

Lemma on_message_text_with_answered d ctx t chat w :
  answered ctx t chat ->
  on_message_text_with d ctx w
  = (call (typing_rejected d) (SendChatAction chat (lit "typing")) ;;;
     try_catch (respond_and_record_with d t)
       (fun err =>
          emit (ConsoleError err) ;;;
          call (apology_rejected d) (Reply APOLOGY)))
      (logged t w).
Proof.
  intros (Hmsg & Hchat & Ht & Hc & Hcmd).
  unfold on_message_text_with. rewrite Hmsg, Hchat. cbn [text].
  rewrite Ht, Hcmd. cbn [negb]. apply Z.eqb_neq in Hc. rewrite Hc.
  reflexivity.
Qed.

(** The [catch] of the handler, from any state. *)
Lemma catch_caught d e w1 :
  exists evs r,
    (emit (ConsoleError e) ;;; call (apology_rejected d) (Reply APOLOGY)) w1
    = (r, set_trace (trace w1 ++ evs) w1)
    /\ caught d e evs r.
Proof.
  unfold caught, bind, emit, call.
  destruct (apology_rejected d) as [e'|].
  - exists [ConsoleError e], (Throw e'). split; [reflexivity|]. auto.
  - exists [ConsoleError e; Reply APOLOGY], (Ok tt). split; [|auto].
    unfold emit, set_trace. cbn [trace file fs_fail clock reads api].
    rewrite <- app_assoc. reflexivity.
Qed.




(** ** Reading *)

(** X4.  Reading changes nothing: [loadHistory] leaves the file, the
    clock and the events as they were, whether it succeeds or fails, and
    [getResponse] leaves the file and the clock as they were and sends no
    reply. *)
Theorem reading_changes_nothing t w :
  let w1 := snd (loadHistory w) in
  let w2 := snd (getResponse t w) in
  (file w1 = file w /\ reads w1 = reads w /\ trace w1 = trace w)
  /\ (file w2 = file w /\ reads w2 = reads w
      /\ replies (trace w2) = replies (trace w)).
Proof.
  cbv zeta. split.
  - destruct (loadHistory_keeps w) as (F & T & R & _). auto.
  - destruct (getResponse_effects t w) as (r & l & evs & E & Hevs).
    rewrite E. cbn [snd file reads trace set_trace set_fs_fail].
    split; [reflexivity|]. split; [reflexivity|].
    rewrite replies_app.
    destruct Hevs as [[-> _]|(req & -> & _)]; cbn; apply app_nil_r.
Qed.

Lemma loadHistory_sound w text :
  file w = Some text -> fs_fail w = [] ->
  loadHistory w = mapM JSON_parse (filter truthy (split LF (trim text))) w.
Proof.
  intros Hfile Hfail. unfold loadHistory, bind, existsSync.
  rewrite Hfile. cbn [negb]. rewrite (readFileSync_ok _ Hfail Hfile).
  reflexivity.
Qed.

(** X5.  With a log file that can be read, [loadHistory] succeeds exactly
    when every line of the trimmed text that is not empty is a JSON text,
    and it then returns what these lines parse to, in order; it fails with
    the SyntaxError of JSON.parse exactly when one of them is not.  Either
    way the process is left as it was. *)
Theorem load_outcome w text :
  file w = Some text ->
  fs_fail w = [] ->
  let lines := filter truthy (split LF (trim text)) in
  ((exists vs, loadHistory w = (Ok vs, w) /\ map Some vs = map parse lines)
   <-> Forall (fun l => parse l <> None) lines)
  /\ (loadHistory w = (Throw SyntaxError, w)
      <-> Exists (fun l => parse l = None) lines).
Proof.
  intros Hfile Hfail lines.
  rewrite (loadHistory_sound _ Hfile Hfail). fold lines.
  assert (Hbad : Exists (fun l => parse l = None) lines ->
                 mapM JSON_parse lines w = (Throw SyntaxError, w)).
  { intros H. apply Exists_exists in H. destruct H as (l & Hin & Hl).
    apply (mapM_parse_throws _ _ _ Hin Hl). }
  assert (Hdec : Forall (fun l => parse l <> None) lines
                 \/ Exists (fun l => parse l = None) lines).
  { clear. induction lines as [|l ls [IH|IH]].
    - left. constructor.
    - destruct (parse l) eqn:E.
      + left. constructor; [congruence|assumption].
      + right. constructor. assumption.
    - right. apply Exists_cons_tl. assumption. }
  split; split.
  - intros (vs & E & _). destruct Hdec as [H|H]; [exact H|].
    rewrite (Hbad H) in E. discriminate.
  - apply mapM_parse_all.
  - intros E. destruct Hdec as [H|H]; [|exact H].
    destruct (@mapM_parse_all lines w H) as (vs & E' & _).
    rewrite E' in E. discriminate.
  - exact Hbad.
Qed.

Lemma load_outcome_witness :
  let text := sample_line (lit "a") ++ LF :: lit "{oops" in
  let w := set_file (Some text) fresh_world in
  file w = Some text
  /\ fs_fail w = []
  /\ (loadHistory w = (Throw SyntaxError, w)
      <-> Exists (fun l => parse l = None)
            (filter truthy (split LF (trim text)))).
Proof.
  cbv zeta. split; [reflexivity|]. split; [reflexivity|].
  apply (@load_outcome
           (set_file (Some (sample_line (lit "a") ++ LF :: lit "{oops"))
              fresh_world)
           (sample_line (lit "a") ++ LF :: lit "{oops") eq_refl eq_refl).
Defined.

(** X6.  A log file that is empty or holds white space only (spaces,
    line feeds) loads as the empty history: nothing is parsed, and the
    process is left as it was. *)
Theorem blank_log_is_empty w text :
  file w = Some text ->
  fs_fail w = [] ->
  blank text = true ->
  loadHistory w = (Ok [], w).
Proof.
  intros Hfile Hfail Hblank.
  rewrite (loadHistory_sound _ Hfile Hfail).
  unfold trim. rewrite (StringFacts.trimStart_all_white _ Hblank).
  reflexivity.
Qed.

Lemma blank_log_is_empty_witness :
  let w := set_file (Some [32; 10; 10]%N) fresh_world in
  file w = Some [32; 10; 10]%N
  /\ fs_fail w = []
  /\ blank [32; 10; 10]%N = true
  /\ loadHistory w = (Ok [], w).
Proof.
  cbv zeta. split; [reflexivity|]. split; [reflexivity|].
  split; [reflexivity|].
  apply (@blank_log_is_empty (set_file (Some [32; 10; 10]%N) fresh_world)
           [32; 10; 10]%N eq_refl eq_refl eq_refl).
Defined.

(** ** Appending *)

(** X7.  On a sound store holding the records [ms], however many they
    are, [addToHistory] succeeds, reads the clock once and adds no event.
    The log then holds the last records of [ms] followed by the new one,
    which is the last: min(|ms| + 1, 100) records in all, so that a log
    longer than the bound is cut to the bound by the next call. *)
Theorem append_cuts_to_bound w ms r c :
  stored w ms ->
  let m := mkMessage r c (toISOString (clock w (reads w))) in
  exists w' dropped older,
    addToHistory MAX_HISTORY r c w = (Ok tt, w')
    /\ loadHistory w' = (Ok (map message_value (older ++ [m])), w')
    /\ ms = dropped ++ older
    /\ length (older ++ [m]) = Nat.min (S (length ms)) MAX_HISTORY
    /\ reads w' = S (reads w)
    /\ trace w' = trace w.
Proof.
  intros Hst m.
  destruct (@addToHistory_stored MAX_HISTORY w ms r c Hst) as [Hrun Hst'].
  cbv zeta in Hrun, Hst'. fold m in Hrun, Hst'.
  assert (E : slice_last MAX_HISTORY (ms ++ [m])
              = slice_last (MAX_HISTORY - 1) ms ++ [m]).
  { apply slice_last_app. cbn. unfold MAX_HISTORY. lia. }
  rewrite E in Hrun, Hst'.
  eexists. exists (firstn (length ms - (MAX_HISTORY - 1)) ms).
  exists (slice_last (MAX_HISTORY - 1) ms).
  split; [exact Hrun|]. split; [apply loadHistory_stored; exact Hst'|].
  split; [symmetry; apply firstn_skipn|].
  split; [|split; reflexivity].
  rewrite length_app, slice_last_length. cbn [length]. unfold MAX_HISTORY. lia.
Qed.

Lemma append_cuts_to_bound_witness :
  stored fresh_world []
  /\ exists w' dropped older,
       addToHistory MAX_HISTORY user (lit "hi") fresh_world = (Ok tt, w')
       /\ loadHistory w'
          = (Ok (map message_value
                   (older ++ [mkMessage user (lit "hi") (lit "T0")])), w')
       /\ [] = dropped ++ older
       /\ length (older ++ [mkMessage user (lit "hi") (lit "T0")])
          = Nat.min 1 MAX_HISTORY
       /\ reads w' = 1
       /\ trace w' = [].
Proof.
  assert (Hst : stored fresh_world []).
  { split; [reflexivity|]. left. split; reflexivity. }
  split; [exact Hst|].
  apply (@append_cuts_to_bound fresh_world [] user (lit "hi") Hst).
Defined.

(** ** The request for a log of any values *)

Lemma to_param_pure v w :
  to_param v w
  = (match v with
     | JNull => Throw TypeError
     | _ => Ok (entry_of v)
     end, w).
Proof. destruct v; reflexivity. Qed.

Lemma mapM_to_param_null l w :
  In JNull l -> mapM to_param l w = (Throw TypeError, w).
Proof.
  induction l as [|v l IH]; [contradiction|]. intros Hin.
  cbn [mapM]. unfold bind at 1. rewrite to_param_pure.
  destruct v; try reflexivity;
    (destruct Hin as [E|Hin]; [discriminate|]);
    unfold bind; rewrite (IH Hin); reflexivity.
Qed.

Lemma mapM_to_param_ok l w :
  ~ In JNull l -> mapM to_param l w = (Ok (map entry_of l), w).
Proof.
  induction l as [|v l IH]; intros Hno; [reflexivity|].
  assert (E : mapM to_param l w = (Ok (map entry_of l), w)).
  { apply IH. intros H. apply Hno. right. exact H. }
  cbn [mapM]. unfold bind at 1. rewrite to_param_pure.
  destruct v; try (exfalso; apply Hno; left; reflexivity);
    unfold bind; rewrite E; reflexivity.
Qed.

(** X8.  For a log that loads, whatever values its lines hold: when one
    of the last 20 values is [null], [getResponse] fails with a TypeError
    before any request is made; otherwise it makes one request, whose
    messages are the entries of the last min(H, 20) values, in order (the
    [role] and [content] of an object, nothing for another value),
    followed by the entry of the new message: at most 21 entries. *)
Theorem request_for_any_log t w h w1 :
  loadHistory w = (Ok h, w1) ->
  (In JNull (slice_last 20 h) -> getResponse t w = (Throw TypeError, w1))
  /\ (~ In JNull (slice_last 20 h) ->
      exists req,
        requests (trace (snd (getResponse t w))) = requests (trace w) ++ [req]
        /\ messages req = map entry_of (slice_last 20 h) ++ [current t]
        /\ length (messages req) = S (Nat.min (length h) 20)).
Proof.
  intros Hload.
  assert (Ht : trace w1 = trace w).
  { pose proof (loadHistory_keeps w) as K. cbv zeta in K. rewrite Hload in K.
    apply K. }
  split; intros Hnull; unfold getResponse; erewrite bind_ok by exact Hload.
  - erewrite bind_throw by (apply mapM_to_param_null; exact Hnull).
    reflexivity.
  - erewrite bind_ok by (apply mapM_to_param_ok; exact Hnull).
    exists (mkRequest (lit "claude-sonnet-4-5") 4096
              (map entry_of (slice_last 20 h) ++ [current t]) SYSTEM).
    split; [|split; [reflexivity|]].
    + unfold bind, messages_create, bind, emit, current.
      cbn [trace set_trace].
      match goal with
      | |- context [match ?x with Ok _ => _ | Throw _ => _ end] => destruct x
      end; unfold ret; cbn [snd trace set_trace];
        rewrite requests_app, Ht; reflexivity.
    + cbn [messages]. rewrite length_app, length_map, slice_last_length.
      cbn [length]. lia.
Qed.

Lemma request_for_any_log_witness :
  let w := set_file (Some (lit "null")) fresh_world in
  loadHistory w = (Ok [JNull], w)
  /\ In JNull (slice_last 20 [JNull])
  /\ getResponse (lit "hi") w = (Throw TypeError, w).
Proof.
  cbv zeta. split; [reflexivity|]. split; [left; reflexivity|].
  apply (proj1 (@request_for_any_log (lit "hi")
                  (set_file (Some (lit "null")) fresh_world) [JNull]
                  (set_file (Some (lit "null")) fresh_world) eq_refl)).
  left. reflexivity.
Defined.

(** ** A log that does not parse *)

Lemma loadHistory_corrupt w text l :
  file w = Some text ->
  fs_fail w = [] ->
  In l (split LF (trim text)) ->
  l <> [] ->
  parse l = None ->
  loadHistory w = (Throw SyntaxError, w).
Proof.
  intros Hfile Hfail Hin Hne Hbad.
  rewrite (loadHistory_sound _ Hfile Hfail).
  apply mapM_parse_throws with (l := l); [|exact Hbad].
  apply filter_In. split; [exact Hin|].
  destruct l; [exfalso; apply Hne; reflexivity|reflexivity].
Qed.

Lemma on_message_text_corrupt ctx w :
  loadHistory w = (Throw SyntaxError, w) ->
  exists w' rs,
    on_message_text ctx w = (Ok tt, w')
    /\ file w' = file w /\ fs_fail w' = fs_fail w
    /\ requests (trace w') = requests (trace w)
    /\ replies (trace w') = replies (trace w) ++ rs
    /\ (rs = [] \/ rs = [APOLOGY]).
Proof.
  intros Hload.
  destruct (handler_cases ctx w) as [E|(t & chat & Hans)].
  - exists w, []. rewrite app_nil_r. auto 10.
  - rewrite (@on_message_text_answered ctx t chat w Hans).
    destruct (loadHistory_frame w) as (r & l & E & Hframe).
    rewrite E in Hload.
    assert (Hr : r = Throw SyntaxError).
    { apply (f_equal fst) in Hload. exact Hload. }
    assert (Hl : l = fs_fail w).
    { apply (f_equal (fun p => fs_fail (snd p))) in Hload. exact Hload. }
    subst r. clear Hload E.
    unfold try_catch, respond_and_record, getResponse.
    unfold received at 1.
    erewrite bind_throw by (erewrite bind_throw by apply Hframe; reflexivity).
    unfold bind, emit. cbn [trace set_trace set_fs_fail set_reads].
    eexists. exists [APOLOGY]. split; [reflexivity|].
    cbn [file fs_fail trace set_trace].
    rewrite !requests_app, !replies_app. cbn [requests replies flat_map app].
    rewrite !app_nil_r. auto 10.
Qed.

(** X9.  A log with a line that is not empty and is not a JSON text
    stays as it is: [addToHistory] fails with the SyntaxError without
    writing, and however many updates are handled, the file is not
    changed, no request is made to the model, and each reply sent is the
    apology, at most one for each update. *)
Theorem corrupt_log_stays w text l us r c :
  file w = Some text ->
  fs_fail w = [] ->
  In l (split LF (trim text)) ->
  l <> [] ->
  parse l = None ->
  addToHistory MAX_HISTORY r c w = (Throw SyntaxError, w)
  /\ exists w' n,
       handle_all us w = (Ok tt, w')
       /\ file w' = Some text
       /\ requests (trace w') = requests (trace w)
       /\ replies (trace w') = replies (trace w) ++ repeat APOLOGY n
       /\ n <= length us.
Proof.
  intros Hfile Hfail Hin Hne Hbad. split.
  - unfold addToHistory.
    erewrite bind_throw
      by (eapply loadHistory_corrupt; eassumption).
    reflexivity.
  - clear r c. revert w Hfile Hfail.
    induction us as [|u us IH]; intros w Hfile Hfail.
    + exists w, 0. cbn [repeat]. rewrite app_nil_r.
      split; [reflexivity|]. split; [exact Hfile|].
      split; [reflexivity|]. split; [reflexivity|]. apply Nat.le_0_l.
    + assert (Hload : loadHistory w = (Throw SyntaxError, w))
        by (eapply loadHistory_corrupt; eassumption).
      destruct (on_message_text_corrupt u Hload)
        as (w1 & rs & E1 & F1 & L1 & Q1 & R1 & Hrs).
      rewrite Hfile in F1. rewrite Hfail in L1.
      destruct (IH w1 F1 L1) as (w' & n & E & F & Q & R & Hn).
      cbn [handle_all]. erewrite bind_ok by exact E1.
      destruct Hrs as [->| ->].
      * exists w', n. rewrite app_nil_r in R1. rewrite Q, R, Q1, R1.
        cbn [length].
        split; [exact E|]. split; [exact F|].
        split; [reflexivity|]. split; [reflexivity|]. lia.
      * exists w', (S n). rewrite Q, R, Q1, R1, <- app_assoc.
        cbn [length repeat app].
        split; [exact E|]. split; [exact F|].
        split; [reflexivity|]. split; [reflexivity|]. lia.
Qed.

Lemma corrupt_log_stays_witness :
  let text := sample_line (lit "a") ++ LF :: lit "{oops" in
  let w := set_file (Some text) fresh_world in
  file w = Some text
  /\ fs_fail w = []
  /\ In (lit "{oops") (split LF (trim text))
  /\ lit "{oops" <> []
  /\ parse (lit "{oops") = None
  /\ addToHistory MAX_HISTORY user (lit "hi") w = (Throw SyntaxError, w)
  /\ exists w' n,
       handle_all [sample_update (lit "hi")] w = (Ok tt, w')
       /\ file w' = Some text
       /\ requests (trace w') = requests (trace w)
       /\ replies (trace w') = replies (trace w) ++ repeat APOLOGY n
       /\ n <= 1.
Proof.
  cbv zeta. split; [reflexivity|]. split; [reflexivity|].
  assert (Hin : In (lit "{oops")
                  (split LF (trim (sample_line (lit "a") ++ LF :: lit "{oops"))))
    by (vm_compute; auto).
  assert (Hne : lit "{oops" <> []) by discriminate.
  split; [exact Hin|]. split; [exact Hne|]. split; [reflexivity|].
  apply (@corrupt_log_stays
           (set_file (Some (sample_line (lit "a") ++ LF :: lit "{oops"))
              fresh_world)
           _ _ [sample_update (lit "hi")] user (lit "hi")
           eq_refl eq_refl Hin Hne eq_refl).
Defined.

(** ** Exchanges *)

Lemma paired_cons2 u a rest :
  paired (u :: a :: rest) = true
  <-> role u = user /\ role a = assistant /\ paired rest = true.
Proof.
  cbn [paired]. destruct (role u), (role a); split;
    try discriminate; try tauto;
    intros (H1 & H2 & H3); try discriminate; assumption.
Qed.

Lemma paired_app a b :
  paired a = true -> paired b = true -> paired (a ++ b) = true.
Proof.
  intros Ha Hb. revert Ha.
  induction a as [| |x y l IH _] using list_pair_ind; intros Ha.
  - exact Hb.
  - discriminate.
  - apply paired_cons2 in Ha. destruct Ha as (Hx & Hy & Hl).
    change ((x :: y :: l) ++ b) with (x :: y :: (l ++ b)).
    apply paired_cons2. auto.
Qed.

Lemma paired_double ms :
  paired ms = true -> exists k, length ms = 2 * k.
Proof.
  induction ms as [| |x y l IH _] using list_pair_ind; intros H.
  - exists 0. reflexivity.
  - discriminate.
  - apply paired_cons2 in H. destruct H as (_ & _ & Hl).
    destruct (IH Hl) as [k Hk]. exists (S k). cbn [length]. lia.
Qed.

Lemma paired_skipn k ms :
  paired ms = true -> paired (skipn (2 * k) ms) = true.
Proof.
  revert ms. induction k as [|k IH]; intros ms H; [exact H|].
  replace (2 * S k) with (S (S (2 * k))) by lia.
  destruct ms as [|x [|y l]]; [exact H|discriminate|].
  apply paired_cons2 in H. destruct H as (_ & _ & Hl).
  cbn [skipn]. apply IH. exact Hl.
Qed.

Lemma paired_slice_last j ms :
  paired ms = true -> paired (slice_last (2 * j) ms) = true.
Proof.
  intros H. unfold slice_last.
  destruct (paired_double ms H) as [k Hk]. rewrite Hk.
  replace (2 * k - 2 * j) with (2 * (k - j)) by lia.
  apply paired_skipn. exact H.
Qed.


(** The [try] of the handler on a sound store: the log is left as it was,
    or one exchange is appended and the log cut to its bound. *)
Lemma respond_with_stored d t w1 ms :
  stored w1 ms ->
  exists r w2,
    respond_and_record_with d t w1 = (r, w2)
    /\ (stored w2 ms
        \/ exists u a,
             role u = user /\ role a = assistant
             /\ stored w2 (slice_last MAX_HISTORY (ms ++ [u; a]))).
Proof.
  intros Hst. unfold respond_and_record_with.
  pose proof (@getResponse_records ms t w1 w1 (loadHistory_stored Hst)) as Hget.
  destruct (api w1 (request_for ms t)) as [response|e].
  - erewrite bind_ok by exact Hget.
    unfold bind at 1. unfold newDate. unfold bind at 1. unfold emit at 1.
    destruct (reply_rejected d) as [e|].
    + unfold bind, call, throw. do 2 eexists. split; [reflexivity|].
      left. exact Hst.
    + change (call None ?e) with (emit e).
      unfold bind at 1. unfold emit at 1.
      match goal with
      | |- context [bind (addToHistory _ _ _) _ ?x] => set (w0 := x)
      end.
      assert (Hst0 : stored w0 ms) by exact Hst.
      destruct (@addToHistory_stored MAX_HISTORY w0 ms user t Hst0)
        as [Hrun1 Hst1].
      cbv zeta in Hrun1, Hst1.
      match type of Hrun1 with _ = (_, ?x) => set (w2 := x) in * end.
      destruct (@addToHistory_stored MAX_HISTORY w2 _ assistant
                  (first_text (r_content response)) Hst1) as [Hrun2 Hst2].
      cbv zeta in Hrun2, Hst2.
      match type of Hrun2 with _ = (_, ?x) => set (w' := x) in * end.
      rewrite slice_last_snoc, <- app_assoc in Hst2. cbn [app] in Hst2.
      erewrite bind_ok by exact Hrun1. rewrite Hrun2.
      exists (Ok tt), w'. split; [reflexivity|].
      right. do 2 eexists. split; [|split; [|exact Hst2]]; reflexivity.
  - erewrite bind_throw by exact Hget.
    do 2 eexists. split; [reflexivity|]. left. exact Hst.
Qed.

Lemma handler_with_store_ok d ctx w :
  store_ok w ->
  exists r w', on_message_text_with d ctx w = (r, w') /\ store_ok w'.
Proof.
  intros (ms & Hst & Hlen & Hp).
  destruct (handler_with_cases d ctx w) as [E|(t & chat & Hans)].
  - exists (Ok tt), w. split; [exact E|]. exists ms. auto.
  - rewrite (@on_message_text_with_answered d ctx t chat w Hans).
    destruct (typing_rejected d) as [e|].
    + exists (Throw e), (logged t w). split; [reflexivity|].
      exists ms. split; [exact Hst|]. auto.
    + change (call None ?e) with (emit e).
      unfold bind at 1. unfold emit at 1.
      set (w1 := set_trace (trace (logged t w)
                            ++ [SendChatAction chat (lit "typing")])
                   (logged t w)).
      assert (Hst1 : stored w1 ms) by exact Hst. clearbody w1.
      destruct (respond_with_stored d t Hst1) as (r & w2 & E & H).
      assert (Hok : store_ok w2).
      { destruct H as [H|(u & a & Hu & Ha & H)].
        - exists ms. auto.
        - eexists. split; [exact H|]. split.
          + rewrite slice_last_length. lia.
          + apply (paired_slice_last 50). apply paired_app; [exact Hp|].
            apply paired_cons2. auto. }
      unfold try_catch. rewrite E. destruct r as [[]|e].
      * exists (Ok tt), w2. split; [reflexivity|exact Hok].
      * destruct (catch_caught d e w2) as (ending & r' & Ec & _).
        rewrite Ec. do 2 eexists. split; [reflexivity|].
        destruct Hok as (ms' & Hst' & Hlen' & Hp').
        exists ms'. split; [exact Hst'|]. auto.
Qed.

Lemma poll_store_ok ts w :
  store_ok w -> exists r w', poll ts w = (r, w') /\ store_ok w'.
Proof.
  revert w. induction ts as [|t ts IH]; intros w Hok.
  - exists (Ok tt), w. split; [reflexivity|exact Hok].
  - assert (Hok0 : store_ok (set_api (service t) w)).
    { destruct Hok as (ms & Hst & H). exists ms. split; [exact Hst|exact H]. }
    destruct (handler_with_store_ok (delivery t) (update t) Hok0)
      as (r1 & w1 & E1 & Hok1).
    cbn [poll]. unfold bind. rewrite E1. destruct r1 as [[]|e].
    + apply IH. exact Hok1.
    + exists (Throw e), w1. split; [reflexivity|exact Hok1].
Qed.

(** X10.  The log stays in order over a session.  From a sound store
    (no failure of the file system to come) whose log is made of at most
    100 records that come as exchanges (a user record, then an assistant
    record), any sequence of updates is handled, whatever the model
    service answers for each of them (it may fail for a message and
    answer the same message later), whichever calls of Telegram are
    rejected, and whether the session goes on or an error leaves the
    handler and stops the bot: the log then loads and is again made of at
    most 100 records that come as exchanges. *)
Theorem session_keeps_store ts w :
  store_ok w ->
  exists r w' ms,
    poll ts w = (r, w')
    /\ loadHistory w' = (Ok (map message_value ms), w')
    /\ length ms <= MAX_HISTORY
    /\ paired ms = true.
Proof.
  intros Hok.
  destruct (poll_store_ok ts Hok) as (r & w' & E & ms & Hst & Hlen & Hp).
  exists r, w', ms. split; [exact E|].
  split; [apply loadHistory_stored; exact Hst|]. auto.
Qed.

Lemma session_keeps_store_witness :
  let down (_ : Request) : Result Response :=
    Throw (ApiError (lit "overloaded")) in
  let ts :=
    [mkTurn (sample_update (lit "hi")) delivered down;
     mkTurn (sample_update (lit "hi")) delivered sample_api;
     mkTurn (sample_update (lit "more"))
       (mkDelivery None (Some (ApiError (lit "blocked"))) None) sample_api;
     mkTurn (sample_update (lit "again"))
       (mkDelivery (Some (ApiError (lit "blocked"))) None None) sample_api] in
  store_ok fresh_world
  /\ exists r w' ms,
       poll ts fresh_world = (r, w')
       /\ loadHistory w' = (Ok (map message_value ms), w')
       /\ length ms <= MAX_HISTORY
       /\ paired ms = true.
Proof.
  cbv zeta.
  assert (Hok : store_ok fresh_world).
  { exists []. split; [|split; [apply Nat.le_0_l|reflexivity]].
    split; [reflexivity|]. left. split; reflexivity. }
  split; [exact Hok|].
  apply (@session_keeps_store _ fresh_world Hok).
Defined.

Lemma takes_turns_paired ms t :
  paired ms = true -> takes_turns (map reduce ms ++ [current t]) = true.
Proof.
  induction ms as [| |x y l IH _] using list_pair_ind; intros H.
  - reflexivity.
  - discriminate.
  - apply paired_cons2 in H. destruct H as (Hx & Hy & Hl).
    cbn [map app takes_turns]. rewrite (IH Hl).
    unfold has_role, reduce. cbn [p_role]. rewrite Hx, Hy. reflexivity.
Qed.

(** X11.  On a sound store whose log [ms] is made of exchanges, the
    request [getResponse] makes holds the last min(H, 20) records of the
    log, reduced to role and content, followed by the new message, and
    these messages take turns: they start with a user entry and alternate
    between user and assistant up to the entry of the new message, of
    role user.  Cutting the history to its last 20 records does not break
    an exchange. *)
Theorem request_takes_turns t w ms :
  stored w ms ->
  paired ms = true ->
  exists req,
    requests (trace (snd (getResponse t w))) = requests (trace w) ++ [req]
    /\ messages req = map reduce (slice_last 20 ms) ++ [current t]
    /\ takes_turns (messages req) = true.
Proof.
  intros Hst Hp.
  exists (request_for ms t).
  rewrite (@getResponse_records ms t w w (loadHistory_stored Hst)).
  cbn [snd trace set_trace]. rewrite requests_app.
  split; [reflexivity|]. split; [reflexivity|].
  cbn [request_for messages].
  apply takes_turns_paired. apply (paired_slice_last 10). exact Hp.
Qed.

Lemma request_takes_turns_witness :
  let ms := sample_log 22 in
  stored (world_with ms) ms
  /\ paired ms = true
  /\ exists req,
       requests (trace (snd (getResponse (lit "hi") (world_with ms)))) = [req]
       /\ messages req
          = map reduce (map sample_record (seq 2 20)) ++ [current (lit "hi")]
       /\ takes_turns (messages req) = true.
Proof.
  cbv zeta.
  assert (Hst : stored (world_with (sample_log 22)) (sample_log 22)).
  { split; [reflexivity|]. right. reflexivity. }
  split; [exact Hst|]. split; [reflexivity|].
  apply (@request_takes_turns (lit "hi") (world_with (sample_log 22))
           (sample_log 22) Hst eq_refl).
Defined.

(** ** The start of the process *)




(** ** From one message to the next *)


